(** * A shallow embedding of the command/option resolution engine

    The development follows the TypeScript sources:
    - [suggestions.ts]: [levenshteinDistance], [findSuggestions];
    - [errors.ts]: the error classes, as the constructors of [Exception];
    - [types.ts]: [PositionalArg], [Option], [CommandOptions];
    - [command.ts]: the [Command] class: its constructor with the three
      validations, [run], [runParent], [runLeaf], [reconstructArgv],
      [extractArgs], [parseArgvWithOptions], [coerceToNumber],
      [extractMultipleOptionValue], [extractNegatableBoolean] and
      [extractOptionsFromDefs].

    What the sources take from the JavaScript host and from the [mri]
    package (number parsing, [isNaN], number printing, [toLowerCase],
    [localeCompare], the flag tokenizer) is the interface [Host]: the
    theorems hold for every host, and the worked examples at the end use
    [exampleHost].  Strings are [string] (one [ascii] per
    code unit), JS objects used as records of values are [gmap string _],
    and objects whose enumeration order the code observes
    ([Object.entries], [Map]) are association lists in that order. *)

From Stdlib Require Import ZArith List String Ascii Sorted Permutation Lia Bool.
From stdpp Require Import base gmap strings list fin_maps pretty.

Set Warnings "-register-all".

Local Open Scope string_scope.
Local Open Scope Z_scope.

(** ** Values *)

(** The JavaScript values that reach the engine: [undefined], booleans,
    strings, numbers and arrays.  The number type is the host's. *)
Inductive Value (number : Type) : Type :=
| VUndefined
| VBool (b : bool)
| VString (s : string)
| VNumber (n : number)
| VArray (l : list (Value number)).

Arguments VUndefined {number}.
Arguments VBool {number} b.
Arguments VString {number} s.
Arguments VNumber {number} n.
Arguments VArray {number} l.

(** [mri.Argv]: the positional tokens (the property [_], typed
    [string[]] by the package) and the other properties in
    [Object.entries] order. *)
Record Argv (number : Type) : Type := mkArgv {
  positionals : list string;
  flags : list (string * Value number);
}.

Arguments mkArgv {number} positionals flags.
Arguments positionals {number} a.
Arguments flags {number} a.

(** The options object handed to [mri]. *)
Record MriOptions : Type := mkMriOptions {
  mri_boolean : list string;
  mri_string : list string;
  mri_alias : gmap string string;
}.

(** ** The host *)

Class Host : Type := {
  number : Type;
  (** [Number(v)] *)
  Number : Value number -> number;
  (** [isNaN(n)] *)
  isNaN : number -> bool;
  (** [String(n)] for a number [n] *)
  numberToString : number -> string;
  (** [s.toLowerCase()] *)
  toLowerCase : string -> string;
  (** [a.localeCompare(b)] *)
  localeCompare : string -> string -> Z;
  (** [mri(argv, opts)] *)
  mri : list string -> MriOptions -> Argv number;
}.

(** ** Exceptions: [errors.ts], and the plain [Error]s of [command.ts] *)

Inductive Exception : Type :=
| InvalidOptionError (message : string)
| MissingOptionError (optionName : string)
| MissingArgumentError (argName : string)
| InvalidArgumentError (message : string)
| MissingSubcommandError (commandName : string) (availableSubcommands : list string)
| UnknownSubcommandError (subcommand : string) (availableSubcommands : list string)
    (suggestions : list string)
| UnknownOptionError (unknownOption : string) (availableOptions : list string)
    (suggestions : list string)
| ReservedOptionError (flag : string)
| ValidationError (message : string)
| Error (message : string).

(** A computation that returns or throws. *)
Inductive Result (A : Type) : Type :=
| Ok (a : A)
| Throw (e : Exception).

Arguments Ok {A} a.
Arguments Throw {A} e.

Definition bind {A B : Type} (m : Result A) (k : A -> Result B) : Result B :=
  match m with
  | Ok a => k a
  | Throw e => Throw e
  end.

Notation "'let!' x ':=' m 'in' k" := (bind m (fun x => k))
  (at level 10, x pattern, m at level 100, k at level 200).

(** [arr.map(f)] where [f] may throw: the first failure, left to right. *)
Fixpoint mapThrowing {A B : Type} (f : A -> Result B) (l : list A) : Result (list B) :=
  match l with
  | [] => Ok []
  | x :: l' => let! y := f x in let! ys := mapThrowing f l' in Ok (y :: ys)
  end.

(** ** suggestions.ts *)

(** [Array.prototype.sort(cmp)]: a stable sort; an element goes before the
    first later element it does not compare greater than. *)
Fixpoint sortInsert {A : Type} (cmp : A -> A -> Z) (x : A) (l : list A) : list A :=
  match l with
  | [] => [x]
  | y :: l' => if 0 <? cmp x y then y :: sortInsert cmp x l' else x :: y :: l'
  end.

Definition Array_sort {A : Type} (cmp : A -> A -> Z) (l : list A) : list A :=
  fold_right (sortInsert cmp) [] l.

(** The order a comparator stands for: [a] may come before [b]. *)
Definition notAfter {A : Type} (cmp : A -> A -> Z) (a b : A) : Prop := cmp a b <= 0.

Record SuggestionResult : Type := mkSuggestionResult {
  candidate : string;
  distance : Z;
}.

Section Suggestions.
Context `{Host}.

(** [Math.min(x, y, z)] *)
Definition min3 (x y z : Z) : Z := Z.min (Z.min x y) z.

Definition levenshteinDistance (a b : string) : Z :=
  let aLower := toLowerCase a in
  let bLower := toLowerCase b in
  if String.eqb aLower bLower then 0
  else if Nat.eqb (String.length aLower) 0 then Z.of_nat (String.length bLower)
  else if Nat.eqb (String.length bLower) 0 then Z.of_nat (String.length aLower)
  else
    let prevRow0 := List.map Z.of_nat (seq 0 (S (String.length bLower))) in
    let prevRow :=
      fold_left (fun (prevRow : list Z) (i : nat) =>
        fold_left (fun (currentRow : list Z) (j : nat) =>
          let cost :=
            if bool_decide (String.get (i - 1) aLower = String.get (j - 1) bLower)
            then 0 else 1 in
          (currentRow ++
            [min3 (nth j prevRow 0 + 1)
                  (nth (j - 1) currentRow 0 + 1)
                  (nth (j - 1) prevRow 0 + cost)])%list)
          (seq 1 (String.length bLower)) [Z.of_nat i])
        (seq 1 (String.length aLower)) prevRow0 in
    nth (String.length bLower) prevRow 0.

(** [maxDistance ?? Math.min(3, Math.floor(input.length * 0.4) + 1)].
    The product is a double; its floor is the integer quotient of
    [4 * length] by [10] for every string length.  An explicit
    [maxDistance] is an integer here. *)
Definition threshold (input : string) (maxDistance : option Z) : Z :=
  match maxDistance with
  | Some d => d
  | None => Z.min 3 (Z.of_nat (String.length input) * 4 / 10 + 1)
  end.

(** The test of the loop body: within the threshold, and a positive
    distance or a different string. *)
Definition keeps (input : string) (thr : Z) (c : string) : bool :=
  (levenshteinDistance input c <=? thr)
  && ((0 <? levenshteinDistance input c) || negb (String.eqb input c)).

(** The comparator passed to [sort]. *)
Definition compareResults (a b : SuggestionResult) : Z :=
  if negb (distance a =? distance b) then distance a - distance b
  else localeCompare (candidate a) (candidate b).

Definition findSuggestions (input : string) (candidates : list string)
    (maxDistance : option Z) : list string :=
  if (String.length input <? 2)%nat then []
  else
    let thr := threshold input maxDistance in
    let results :=
      List.map (fun c => mkSuggestionResult c (levenshteinDistance input c))
        (List.filter (keeps input thr) candidates) in
    List.map candidate (take 3 (Array_sort compareResults results)).
End Suggestions.

(** ** Objects with an enumeration order *)

(** [obj[k] = v] and [map.set(k, v)]: an existing key keeps its place. *)
Fixpoint assocSet {V : Type} (k : string) (v : V) (m : list (string * V)) : list (string * V) :=
  match m with
  | [] => [(k, v)]
  | (k', v') :: m' => if String.eqb k' k then (k, v) :: m' else (k', v') :: assocSet k v m'
  end.

(** [obj[k]] and [map.get(k)] *)
Fixpoint assocGet {V : Type} (k : string) (m : list (string * V)) : option V :=
  match m with
  | [] => None
  | (k', v) :: m' => if String.eqb k' k then Some v else assocGet k m'
  end.

(** [{...a, ...b}] and [new Map(b)] (with [a] empty) *)
Definition assocSpread {V : Type} (a b : list (string * V)) : list (string * V) :=
  fold_left (fun m kv => assocSet kv.1 kv.2 m) b a.

(** [Object.keys], [Object.values], [map.keys()] *)
Definition keys {V : Type} (m : list (string * V)) : list string := List.map fst m.
Definition values {V : Type} (m : list (string * V)) : list V := List.map snd m.

(** [l.join(sep)] *)
Definition join (sep : string) (l : list string) : string := String.concat sep l.

(** [s.startsWith(p)] *)
Definition startsWith (s p : string) : bool := String.prefix p s.

(** ** types.ts *)

(** [keyof TypeMap] *)
Inductive TypeName : Type := TString | TNumber | TBoolean.

Definition isNumberType (t : TypeName) : bool :=
  match t with TNumber => true | _ => false end.

Definition isBooleanType (t : TypeName) : bool :=
  match t with TBoolean => true | _ => false end.

Record PositionalArg : Type := mkPositionalArg {
  arg_name : string;
  arg_type : TypeName;
  arg_optional : bool;
  arg_variadic : bool;
}.

(** A handler is a function of the user; the engine stores it and calls
    it, so a label stands for it. *)
Definition Handler : Type := string.

Section Engine.
Context `{Host}.

Local Abbreviation Val := (Value number).

(** [Option], with the type of [long] left open: optional in a
    definition, present after normalization.  [description],
    [placeholder], [choices] and [validate] are read by no function
    embedded here; an omitted [default] is [undefined] and an omitted
    flag is [false]. *)
Record OptionOf (L : Type) : Type := mkOption {
  opt_type : TypeName;
  opt_long : L;
  opt_short : option string;
  opt_multiple : bool;
  opt_default : Val;
  opt_required : bool;
  opt_env : option string;
  opt_negatable : bool;
}.

Arguments mkOption {L}.
Arguments opt_type {L}.
Arguments opt_long {L}.
Arguments opt_short {L}.
Arguments opt_multiple {L}.
Arguments opt_default {L}.
Arguments opt_required {L}.
Arguments opt_env {L}.
Arguments opt_negatable {L}.

Definition Option : Type := OptionOf (option string).
Definition NormalizedOption : Type := OptionOf string.
Definition Options : Type := list (string * Option).
Definition NormalizedOptions : Type := list (string * NormalizedOption).

(** The [Command] instance.  [subcommands] is the [Map], as its
    entries in insertion order. *)
Inductive Command : Type := mkCommand {
  cmd_name : string;
  cmd_description : option string;
  cmd_version : option string;
  cmd_args : list PositionalArg;
  cmd_options : NormalizedOptions;
  cmd_inherits : NormalizedOptions;
  cmd_handler : option Handler;
  cmd_subcommands : option (list (string * Command));
}.

(** [CommandOptions]: the union of [LeafCommandOptions] and
    [ParentCommandOptions], every property of either being optional but
    the name. *)
Record CommandOptions : Type := mkCommandOptions {
  co_name : string;
  co_description : option string;
  co_version : option string;
  co_args : option (list PositionalArg);
  co_options : option Options;
  co_inherits : option Options;
  co_handler : option Handler;
  co_subcommands : option (list Command);
}.

(** What a handler is called with. *)
Record Invocation : Type := mkInvocation {
  inv_handler : Handler;
  inv_args : list Val;
  inv_options : gmap string Val;
}.

Definition isUndefined (v : Val) : bool :=
  match v with VUndefined => true | _ => false end.

(** [v === true] *)
Definition isTrue (v : Val) : bool :=
  match v with VBool true => true | _ => false end.

(** [if (s)] for an optional string *)
Definition truthy (s : option string) : bool :=
  match s with
  | Some s => negb (String.eqb s "")
  | None => false
  end.

(** [String(v)] *)
Fixpoint String_ (v : Val) : string :=
  match v with
  | VUndefined => "undefined"
  | VBool true => "true"
  | VBool false => "false"
  | VString s => s
  | VNumber n => numberToString n
  | VArray l =>
      join "," (List.map (fun x => if isUndefined x then "" else String_ x) l)
  end.

(** [parsed[key]] *)
Definition argvGet (parsed : Argv number) (key : string) : Val :=
  if String.eqb key "_" then VArray (List.map VString (positionals parsed))
  else match assocGet key (flags parsed) with
       | Some v => v
       | None => VUndefined
       end.

(** *** command.ts *)

Definition isParentOptions (opts : CommandOptions) : bool :=
  match co_subcommands opts with Some _ => true | None => false end.

Definition normalizeOptions (options : Options) : NormalizedOptions :=
  fold_left (fun normalized kv =>
      let key := kv.1 in
      let opt := kv.2 in
      assocSet key
        (mkOption (opt_type opt)
           (match opt_long opt with Some l => l | None => key end)
           (opt_short opt) (opt_multiple opt) (opt_default opt)
           (opt_required opt) (opt_env opt) (opt_negatable opt))
        normalized)
    options [].

Definition validateArgs (args : list PositionalArg) : Result unit :=
  match list_find (fun arg => arg_variadic arg = true) args with
  | Some (variadicIndex, variadicArg) =>
      if negb (Nat.eqb variadicIndex (length args - 1)) then
        Throw (Error ("Variadic argument '" +:+ arg_name variadicArg
                      +:+ "' must be the last argument"))
      else Ok tt
  | None => Ok tt
  end.

Definition validateOptionConflicts (options inherits : NormalizedOptions) : Result unit :=
  let inheritedKeys := keys inherits in
  let conflicts :=
    List.filter (fun k => existsb (String.eqb k) inheritedKeys) (keys options) in
  if (0 <? length conflicts)%nat then
    Throw (Error ("Option keys conflict with inherited: " +:+ join ", " conflicts))
  else Ok tt.

Definition reservedLong : list string := ["help"; "version"].
Definition reservedShort : list string := ["h"; "V"].

Definition has (set : list string) (s : string) : bool := existsb (String.eqb s) set.

Fixpoint validateReservedOptions (options : NormalizedOptions) : Result unit :=
  match options with
  | [] => Ok tt
  | (_, opt) :: rest =>
      if has reservedLong (opt_long opt) then
        Throw (ReservedOptionError ("--" +:+ opt_long opt))
      else
        match opt_short opt with
        | Some short =>
            if truthy (Some short) && has reservedShort short then
              Throw (ReservedOptionError ("-" +:+ short))
            else validateReservedOptions rest
        | None => validateReservedOptions rest
        end
  end.

(** [new Command(cmdOptions)] *)
Definition newCommand (cmdOptions : CommandOptions) : Result Command :=
  let name := co_name cmdOptions in
  let description := co_description cmdOptions in
  let version := co_version cmdOptions in
  let options := normalizeOptions (default [] (co_options cmdOptions)) in
  let! this :=
    match co_subcommands cmdOptions with
    | Some subcommands =>
        if Nat.eqb (length subcommands) 0 then
          Throw (Error "Parent command must have at least one subcommand")
        else
          Ok (mkCommand name description version [] options [] None
                (Some (assocSpread [] (List.map (fun cmd => (cmd_name cmd, cmd)) subcommands))))
    | None =>
        let args := default [] (co_args cmdOptions) in
        let inherits := normalizeOptions (default [] (co_inherits cmdOptions)) in
        let! _ := validateArgs args in
        let! _ := validateOptionConflicts options inherits in
        let! _ := validateReservedOptions inherits in
        Ok (mkCommand name description version args options inherits
              (co_handler cmdOptions) None)
    end in
  let! _ := validateReservedOptions options in
  Ok this.

(** The factory [command(options)] *)
Definition command (options : CommandOptions) : Result Command := newCommand options.

Definition isParent (c : Command) : bool :=
  match cmd_subcommands c with
  | Some subcommands => (0 <? length subcommands)%nat
  | None => false
  end.

Definition getSubcommand (c : Command) (name : string) : option Command :=
  match cmd_subcommands c with
  | Some subcommands => assocGet name subcommands
  | None => None
  end.

Definition getSubcommandNames (c : Command) : list string :=
  match cmd_subcommands c with
  | Some subcommands => keys subcommands
  | None => []
  end.

Definition parseArgvWithOptions (argv : list string) (optionDefs : NormalizedOptions)
    : Argv number :=
  let '(booleanFlags, stringFlags, aliases) :=
    fold_left (fun (acc : list string * list string * gmap string string) opt =>
        let '(booleanFlags, stringFlags, aliases) := acc in
        let '(booleanFlags, stringFlags) :=
          if isBooleanType (opt_type opt) then
            (if opt_negatable opt
             then (booleanFlags ++ [opt_long opt] ++ ["no-" +:+ opt_long opt])%list
             else (booleanFlags ++ [opt_long opt])%list,
             stringFlags)
          else (booleanFlags, (stringFlags ++ [opt_long opt])%list) in
        let aliases :=
          match opt_short opt with
          | Some short =>
              if truthy (Some short) then <[short := opt_long opt]> aliases else aliases
          | None => aliases
          end in
        (booleanFlags, stringFlags, aliases))
      (values optionDefs) ([], [], ∅) in
  mri argv (mkMriOptions booleanFlags stringFlags aliases).

(** The callback of [remaining.map] in [extractArgs] (the variadic
    case). *)
Definition typedRemainingValue (arg : PositionalArg) (value : string) : Result Val :=
  match arg_type arg with
  | TNumber =>
      let numValue := Number (VString value) in
      if isNaN numValue then
        Throw (InvalidArgumentError (arg_name arg +:+ " values must be numbers"))
      else Ok (VNumber numValue)
  | TBoolean => Ok (VBool (String.eqb value "true"))
  | TString => Ok (VString value)
  end.

(** The loop of [extractArgs], from index [i] with [values] pushed so
    far. *)
Fixpoint extractArgsFrom (parsed : Argv number) (args : list PositionalArg) (i : nat)
    (values : list Val) : Result (list Val) :=
  match args with
  | [] => Ok values
  | arg :: rest =>
      if arg_variadic arg then
        let remaining := drop i (positionals parsed) in
        if negb (arg_optional arg) && Nat.eqb (length remaining) 0 then
          Throw (MissingArgumentError (arg_name arg))
        else
          let! typedRemaining := mapThrowing (typedRemainingValue arg) remaining in
          Ok (values ++ [VArray typedRemaining])%list
      else
        let value := positionals parsed !! i in
        if bool_decide (value = None) && negb (arg_optional arg) then
          Throw (MissingArgumentError (arg_name arg))
        else
          match arg_type arg with
          | TNumber =>
              match value with
              | Some value =>
                  let numValue := Number (VString value) in
                  if isNaN numValue then
                    Throw (InvalidArgumentError (arg_name arg +:+ " must be a number"))
                  else
                    extractArgsFrom parsed rest (S i) (values ++ [VNumber numValue])%list
              | None => extractArgsFrom parsed rest (S i) (values ++ [VUndefined])%list
              end
          | TBoolean =>
              extractArgsFrom parsed rest (S i)
                (values ++ [match value with
                            | Some value => VBool (String.eqb value "true")
                            | None => VUndefined
                            end])%list
          | TString =>
              extractArgsFrom parsed rest (S i)
                (values ++ [match value with
                            | Some value => VString value
                            | None => VUndefined
                            end])%list
          end
  end.

Definition extractArgs (c : Command) (parsed : Argv number) : Result (list Val) :=
  extractArgsFrom parsed (cmd_args c) 0 [].

Definition coerceToNumber (value : Val) (key : string) : Result number :=
  let numValue := Number value in
  if isNaN numValue then Throw (InvalidOptionError (key +:+ " must be a number"))
  else Ok numValue.

Definition extractMultipleOptionValue (value : Val) (opt : NormalizedOption)
    (key : string) : Result (list Val) :=
  let arr :=
    match value with
    | VUndefined => []
    | VArray l => l
    | _ => [value]
    end in
  if isNumberType (opt_type opt) then
    mapThrowing (fun v => let! n := coerceToNumber v key in Ok (VNumber n)) arr
  else Ok arr.

Definition extractNegatableBoolean (parsed : Argv number) (opt : NormalizedOption) : Val :=
  let negatedValue := argvGet parsed ("no-" +:+ opt_long opt) in
  match negatedValue with
  | VBool true => VBool false
  | _ =>
      let value := argvGet parsed (opt_long opt) in
      if negb (isUndefined value) then value else opt_default opt
  end.

(** The value assigned to [optionValues[key]] in the loop of
    [extractOptionsFromDefs]. *)
Definition optionValue (parsed : Argv number) (key : string) (opt : NormalizedOption)
    : Result Val :=
  let value := argvGet parsed (opt_long opt) in
  if opt_multiple opt then
    let! arr := extractMultipleOptionValue value opt key in Ok (VArray arr)
  else if isNumberType (opt_type opt) then
    if negb (isUndefined value) then
      let! n := coerceToNumber value key in Ok (VNumber n)
    else Ok (opt_default opt)
  else if isBooleanType (opt_type opt) && opt_negatable opt then
    Ok (extractNegatableBoolean parsed opt)
  else Ok (if negb (isUndefined value) then value else opt_default opt).

(** The loop of [extractOptionsFromDefs] over the remaining entries. *)
Fixpoint extractOptionsInto (parsed : Argv number) (entries : NormalizedOptions)
    (optionValues : gmap string Val) : Result (gmap string Val) :=
  match entries with
  | [] => Ok optionValues
  | (key, opt) :: rest =>
      let! v := optionValue parsed key opt in
      let optionValues := <[key := v]> optionValues in
      if opt_required opt && isUndefined (default VUndefined (optionValues !! key)) then
        Throw (MissingOptionError (opt_long opt))
      else extractOptionsInto parsed rest optionValues
  end.

Definition extractOptionsFromDefs (parsed : Argv number) (optionDefs : NormalizedOptions)
    : Result (gmap string Val) :=
  extractOptionsInto parsed optionDefs ∅.

Definition extractOptions (c : Command) (parsed : Argv number) : Result (gmap string Val) :=
  extractOptionsFromDefs parsed (cmd_options c).

Definition reconstructArgv (c : Command) (positionals : list string) (parsed : Argv number)
    : list string :=
  fold_left (fun (result : list string) (kv : string * Val) =>
      let key := kv.1 in
      let value := kv.2 in
      if String.eqb key "_" then result
      else
        let isOwnOption :=
          existsb (fun opt => String.eqb (opt_long opt) key
                              || bool_decide (opt_short opt = Some key))
            (values (cmd_options c)) in
        if isOwnOption then result
        else
          match value with
          | VBool true => (result ++ ["--" +:+ key])%list
          | VBool false | VUndefined => result
          | _ => (result ++ ["--" +:+ key; String_ value])%list
          end)
    (flags parsed) positionals.

Definition runLeaf (c : Command) (argv : list string)
    (inheritedOptions : gmap string Val) : Result Invocation :=
  let mergedOptionDefs := assocSpread (cmd_inherits c) (cmd_options c) in
  let parsed := parseArgvWithOptions argv mergedOptionDefs in
  let! args := extractArgs c parsed in
  let! ownOptions := extractOptionsFromDefs parsed (cmd_options c) in
  let! inheritedFromArgv := extractOptionsFromDefs parsed (cmd_inherits c) in
  let options := ownOptions ∪ (inheritedOptions ∪ inheritedFromArgv) in
  match cmd_handler c with
  | None => Throw (Error ("Command '" +:+ cmd_name c +:+ "' has no handler"))
  | Some handler => Ok (mkInvocation handler args options)
  end.

(** The body of [runParent]; [subcommandRun name] is the [run] method
    of [this.getSubcommand(name)], if there is one. *)
Definition runParentWith
    (subcommandRun : string -> option (list string -> gmap string Val -> Result Invocation))
    (c : Command) (argv : list string) (inheritedOptions : gmap string Val)
    : Result Invocation :=
  let parsed := parseArgvWithOptions argv (cmd_options c) in
  let! parentOpts := extractOptions c parsed in
  let definedParentOpts :=
    filter (fun kv : string * Val => isUndefined kv.2 = false) parentOpts in
  let mergedInherited := definedParentOpts ∪ inheritedOptions in
  match head (positionals parsed) with
  | None => Throw (MissingSubcommandError (cmd_name c) (getSubcommandNames c))
  | Some subcommandName =>
      if String.eqb subcommandName "" || startsWith subcommandName "-" then
        Throw (MissingSubcommandError (cmd_name c) (getSubcommandNames c))
      else
        match subcommandRun subcommandName with
        | None =>
            Throw (UnknownSubcommandError subcommandName (getSubcommandNames c) [])
        | Some subRun =>
            let remainingArgv := reconstructArgv c (tail (positionals parsed)) parsed in
            subRun remainingArgv mergedInherited
        end
  end.

Fixpoint run (c : Command) (argv : list string) (inheritedOptions : gmap string Val)
    {struct c} : Result Invocation :=
  if isParent c then
    runParentWith
      (fun name =>
         match c with
         | mkCommand _ _ _ _ _ _ _ (Some subcommands) =>
             (fix get (m : list (string * Command)) :=
                match m with
                | [] => None
                | (k, sub) :: m' => if String.eqb k name then Some (run sub) else get m'
                end) subcommands
         | _ => None
         end)
      c argv inheritedOptions
  else runLeaf c argv inheritedOptions.

Definition runParent (c : Command) (argv : list string)
    (inheritedOptions : gmap string Val) : Result Invocation :=
  runParentWith (fun name => run <$> getSubcommand c name) c argv inheritedOptions.

(** The exceptions that the [throw] statements reachable from [run]
    construct: [UnknownSubcommandError] is built there without its
    [suggestions] argument, which is then the empty list. *)
Definition thrownByRun (e : Exception) : bool :=
  match e with
  | InvalidOptionError _ | MissingOptionError _ | MissingArgumentError _
  | InvalidArgumentError _ | MissingSubcommandError _ _ | Error _ => true
  | UnknownSubcommandError _ _ suggestions =>
      match suggestions with [] => true | _ => false end
  | UnknownOptionError _ _ _ | ReservedOptionError _ | ValidationError _ => false
  end.
End Engine.

Arguments has : simpl never.
Arguments mkOption {H L}.
Arguments opt_type {H L}.
Arguments opt_long {H L}.
Arguments opt_short {H L}.
Arguments opt_multiple {H L}.
Arguments opt_default {H L}.
Arguments opt_required {H L}.
Arguments opt_env {H L}.
Arguments opt_negatable {H L}.

(** ** The statements of the specification, in its words

    The definitions of this section and of [SuggestionWords] follow the
    prose of the specification, not the code; the theorems below compare
    the code with them. *)

Section SpecificationWords.
Context `{Host}.

Local Abbreviation Val := (Value number).

(** "the token's coerced value" *)
Definition specCoerceToken (opt : NormalizedOption) (raw : Val) : Val :=
  if isNumberType (opt_type opt) then VNumber (Number raw) else raw.

(** "the environment value's coerced value"; for a boolean, true iff
    the raw value is 1, true or yes, whatever the case. *)
Definition specCoerceEnv (opt : NormalizedOption) (raw : string) : Val :=
  match opt_type opt with
  | TString => VString raw
  | TNumber => VNumber (Number (VString raw))
  | TBoolean => VBool (has ["1"; "true"; "yes"] (toLowerCase raw))
  end.

(** "collect every provided occurrence into a sequence (wrapping a
    single scalar occurrence into a one-element sequence)" *)
Definition occurrences (value : Val) : list Val :=
  match value with
  | VUndefined => []
  | VArray l => l
  | _ => [value]
  end.

(** A token that coercion accepts: any token of a string or boolean
    option, a numeric one of a number option. *)
Definition coercible (opt : NormalizedOption) (raw : Val) : Prop :=
  isNumberType (opt_type opt) = true -> isNaN (Number raw) = false.

(** "explicit CLI token > environment variable fallback > declared
    default", over an environment [env]. *)
Definition specPrecedence (env : gmap string string) (parsed : Argv number)
    (opt : NormalizedOption) : Val :=
  let token := argvGet parsed (opt_long opt) in
  if negb (isUndefined token) then specCoerceToken opt token
  else
    match opt_env opt ≫= (fun name => env !! name) with
    | Some raw => specCoerceEnv opt raw
    | None => opt_default opt
    end.

(** "own options override inherited options override values already
    resolved from ancestors" *)
Definition specLeafMerge (own inheritedAtLeaf fromAncestors : gmap string Val)
    : gmap string Val :=
  own ∪ (inheritedAtLeaf ∪ fromAncestors).

(** "any normalized long name equals help/version or any short alias
    equals h/V" *)
Definition reserved (opt : NormalizedOption) : bool :=
  has reservedLong (opt_long opt)
  || match opt_short opt with
     | Some short => has reservedShort short
     | None => false
     end.

(** The checks that the constructor runs before it looks for reserved
    names: a parent has a subcommand; in a leaf the variadic argument is
    last and no key is both own and inherited. *)
Definition structurallyValid (def : CommandOptions) : Prop :=
  match co_subcommands def with
  | Some subcommands => subcommands ≠ []
  | None =>
      validateArgs (default [] (co_args def)) = Ok tt
      ∧ validateOptionConflicts (normalizeOptions (default [] (co_options def)))
          (normalizeOptions (default [] (co_inherits def))) = Ok tt
  end.
End SpecificationWords.

(** ** A host for the worked examples

    Numbers are the integers and [NaN]; [Number] reads a string of decimal
    digits (the empty string is zero) and sends every other string, and
    every array, to [NaN]; lower-casing acts on the letters A to Z; strings
    are compared code unit by code unit; the tokenizer returns every token
    as a positional, which is what [mri] returns for a vector with no token
    that starts with a dash.  The examples stay within these inputs. *)

Inductive ExampleNumber : Type := NaN | Int (z : Z).

Fixpoint digitsValue (s : string) (acc : Z) : option Z :=
  match s with
  | EmptyString => Some acc
  | String c s' =>
      let n := nat_of_ascii c in
      if ((48 <=? n) && (n <=? 57))%nat
      then digitsValue s' (10 * acc + Z.of_nat (n - 48))
      else None
  end.

Definition exampleNumber (v : Value ExampleNumber) : ExampleNumber :=
  match v with
  | VUndefined => NaN
  | VBool b => Int (if b then 1 else 0)
  | VString s => match digitsValue s 0 with Some z => Int z | None => NaN end
  | VNumber n => n
  | VArray _ => NaN
  end.

Definition asciiLower (c : ascii) : ascii :=
  let n := nat_of_ascii c in
  if ((65 <=? n) && (n <=? 90))%nat then ascii_of_nat (n + 32) else c.

Fixpoint stringLower (s : string) : string :=
  match s with
  | EmptyString => EmptyString
  | String c s' => String (asciiLower c) (stringLower s')
  end.

Definition codeUnitCompare (a b : string) : Z :=
  match String.compare a b with
  | Lt => -1
  | Eq => 0
  | Gt => 1
  end.

Definition exampleHost : Host := {|
  number := ExampleNumber;
  Number := exampleNumber;
  isNaN := fun n => match n with NaN => true | Int _ => false end;
  numberToString := fun n => match n with NaN => "NaN" | Int z => pretty z end;
  toLowerCase := stringLower;
  localeCompare := codeUnitCompare;
  mri := fun argv _ => mkArgv argv [];
|}.

(** ** The options and commands of the worked examples *)

Section ExampleData.
Context `{Host}.

(** The tokenizer's result for the empty argument vector. *)
Definition emptyArgv : Argv number := mkArgv [] [].

(** [tag: { type: "string", multiple: true, default: "x" }] *)
Definition tagOption : NormalizedOption :=
  mkOption TString "tag" None true (VString "x") false None false.

(** [token: { type: "string", env: "API_TOKEN", default: "d" }] *)
Definition tokenOption : NormalizedOption :=
  mkOption TString "token" None false (VString "d") false (Some "API_TOKEN") false.

(** [port: { type: "number", default: 3000 }], the default as the
    number that [Number("3000")] is. *)
Definition portOption : NormalizedOption :=
  mkOption TNumber "port" None false (VNumber (Number (VString "3000"))) false None false.

(** [color: { type: "boolean", negatable: true }] *)
Definition colorOption : NormalizedOption :=
  mkOption TBoolean "color" None false VUndefined false None true.

(** [files: { type: "string", multiple: true, required: true }] *)
Definition filesOption : NormalizedOption :=
  mkOption TString "files" None true VUndefined true None false.

(** [level: { type: "string", default: "a" }] *)
Definition levelOption : Option :=
  mkOption TString None None false (VString "a") false None false.

(** [verbose: { type: "boolean", long: "verbose" }] *)
Definition verboseOption : Option :=
  mkOption TBoolean (Some "verbose") None false VUndefined false None false.

(** [help: { type: "boolean" }], whose long name is inferred. *)
Definition helpOption : Option :=
  mkOption TBoolean None None false VUndefined false None false.

(** [command({ name, handler })] *)
Definition leafDefinition (name : string) : CommandOptions :=
  mkCommandOptions name None None None None None (Some ("handler of " +:+ name)) None.

Definition leafCommand (name : string) : Command :=
  mkCommand name None None [] [] [] (Some ("handler of " +:+ name)) None.

(** [command({ name: "cli", subcommands: [add, list, remove] })] *)
Definition cliDefinition : CommandOptions :=
  mkCommandOptions "cli" None None None None None None
    (Some [leafCommand "add"; leafCommand "list"; leafCommand "remove"]).

Definition cli : Command :=
  mkCommand "cli" None None [] [] [] None
    (Some [("add", leafCommand "add"); ("list", leafCommand "list");
           ("remove", leafCommand "remove")]).

(** A definition with both a handler and subcommands. *)
Definition hybridDefinition : CommandOptions :=
  mkCommandOptions "cli" None None None None None (Some "default action")
    (Some [leafCommand "status"]).

(** [command({ name: "deploy", inherits: { level }, handler })] *)
Definition deployDefinition : CommandOptions :=
  mkCommandOptions "deploy" None None None None (Some [("level", levelOption)])
    (Some "handler of deploy") None.

(** [command({ name: "test", options: { verbose }, handler })] *)
Definition testDefinition : CommandOptions :=
  mkCommandOptions "test" None None None (Some [("verbose", verboseOption)]) None
    (Some "handler of test") None.

(** What the constructor makes of [deployDefinition]. *)
Definition deploy : Command :=
  mkCommand "deploy" None None [] []
    [("level", mkOption TString "level" None false (VString "a") false None false)]
    (Some "handler of deploy") None.

(** What the constructor makes of [hybridDefinition]. *)
Definition hybrid : Command :=
  mkCommand "cli" None None [] [] [] None (Some [("status", leafCommand "status")]).

(** [command({ name: "show", options: { help }, handler })] *)
Definition helpDefinition : CommandOptions :=
  mkCommandOptions "show" None None None (Some [("help", helpOption)]) None
    (Some "handler of show") None.

(** A leaf whose variadic argument is not the last one and whose
    option [help] takes a reserved name. *)
Definition variadicHelpDefinition : CommandOptions :=
  mkCommandOptions "copy" None None
    (Some [mkPositionalArg "files" TString false true;
           mkPositionalArg "dest" TString false false])
    (Some [("help", helpOption)]) None (Some "handler of copy") None.
End ExampleData.

Section SuggestionWords.
Context `{Host}.

(** "its distance is at most the threshold and it is not an exact
    case-sensitive match" *)
Definition qualifies (input : string) (thr : Z) (c : string) : bool :=
  (levenshteinDistance input c <=? thr) && negb (String.eqb c input).

(** "distance ascending, then candidate lexical order" *)
Definition ranksBefore (input c1 c2 : string) : Prop :=
  levenshteinDistance input c1 < levenshteinDistance input c2
  ∨ (levenshteinDistance input c1 = levenshteinDistance input c2
     ∧ localeCompare c1 c2 <= 0).
End SuggestionWords.

(** ** index.ts: the command whose help is shown *)

Section HelpTarget.
Context `{Host}.

(** The [for] loop of [findHelpTarget]: the help flags and every token
    that starts with a dash are skipped; [found] is what the loop does
    with the first other token, a [return] or the [break]. *)
Fixpoint helpLoop {T : Type} (found : string -> option T) (argv : list string) : option T :=
  match argv with
  | [] => None
  | arg :: rest =>
      if String.eqb arg "--help" || String.eqb arg "-h" then helpLoop found rest
      else if startsWith arg "-" then helpLoop found rest
      else found arg
  end.

Fixpoint findHelpTarget (cmd : Command) (argv : list string) {struct cmd} : Command :=
  if negb (isParent cmd) then cmd
  else
    match
      helpLoop
        (fun arg =>
           match cmd with
           | mkCommand _ _ _ _ _ _ _ (Some subcommands) =>
               (fix get (m : list (string * Command)) :=
                  match m with
                  | [] => None
                  | (k, sub) :: m' =>
                      if String.eqb k arg then Some (findHelpTarget sub (tail argv))
                      else get m'
                  end) subcommands
           | _ => None
           end)
        argv
    with
    | Some target => target
    | None => cmd
    end.

(** [b] is a subcommand of [a]. *)
Definition subcommandOf (a b : Command) : Prop :=
  exists name, getSubcommand a name = Some b.
End HelpTarget.

(** ** Words for the properties beyond the specification *)

Section PositionalWords.
Context `{Host}.

(** The value of a positional token under the type of its argument. *)
Definition coerceArg (arg : PositionalArg) (token : string) : Value number :=
  match arg_type arg with
  | TNumber => VNumber (Number (VString token))
  | TBoolean => VBool (String.eqb token "true")
  | TString => VString token
  end.

(** The value of an argument at index [k]: the sequence of the
    remaining tokens for a variadic argument, the token at [k] for
    another, [undefined] when there is none. *)
Definition positionalValue (positionals : list string) (k : nat) (arg : PositionalArg)
    : Value number :=
  if arg_variadic arg then VArray (List.map (coerceArg arg) (drop k positionals))
  else match positionals !! k with
       | Some token => coerceArg arg token
       | None => VUndefined
       end.

(** The error, if any, that the argument at index [k] meets: a missing
    token for an argument that is not optional, else a token of a number
    argument that is not a number.  A variadic argument takes all the
    tokens from [k] on, another argument the token at [k]. *)
Definition argFailure (positionals : list string) (k : nat) (arg : PositionalArg)
    : option Exception :=
  let tokens :=
    if arg_variadic arg then drop k positionals else take 1 (drop k positionals) in
  if negb (arg_optional arg) && Nat.eqb (length tokens) 0 then
    Some (MissingArgumentError (arg_name arg))
  else if isNumberType (arg_type arg)
          && existsb (fun token => isNaN (Number (VString token))) tokens then
    Some (InvalidArgumentError
            (arg_name arg
             +:+ (if arg_variadic arg then " values must be numbers" else " must be a number")))
  else None.

(** Only the last argument may be variadic. *)
Definition variadicLast (args : list PositionalArg) : Prop :=
  Forall (fun arg => arg_variadic arg = false) (take (length args - 1) args).

(** The key of a flag is a long name or a short alias of the table. *)
Definition isOwnFlag (options : NormalizedOptions) (key : string) : bool :=
  existsb (fun opt => String.eqb (opt_long opt) key || bool_decide (opt_short opt = Some key))
    (values options).

(** The tokens that stand for a flag of the tokenizer's result in the
    argument list of a subcommand. *)
Definition forwardedTokens (options : NormalizedOptions) (entry : string * Value number)
    : list string :=
  if String.eqb entry.1 "_" then []
  else if isOwnFlag options entry.1 then []
  else match entry.2 with
       | VBool true => ["--" +:+ entry.1]
       | VBool false | VUndefined => []
       | value => ["--" +:+ entry.1; String_ value]
       end.

(** A flag of the tokenizer's result that a parent with the table
    [options] passes on to its subcommand. *)
Definition passedOn (options : NormalizedOptions) (parsed : Argv number)
    (key : string) (value : Value number) : Prop :=
  (key, value) ∈ flags parsed ∧ key ≠ "_" ∧ isOwnFlag options key = false
  ∧ value ≠ VBool false ∧ value ≠ VUndefined.

(** The error, if any, that an entry of an option table meets: that of
    its value, else a required option left undefined. *)
Definition entryFailure (parsed : Argv number) (entry : string * NormalizedOption)
    : option Exception :=
  match optionValue parsed entry.1 entry.2 with
  | Throw e => Some e
  | Ok v =>
      if opt_required entry.2 && isUndefined v
      then Some (MissingOptionError (opt_long entry.2)) else None
  end.
End PositionalWords.

(** The Levenshtein distance: the textbook recursion on two sequences. *)
Fixpoint editDistance {A : Type} `{EqDecision A} (u : list A) : list A -> Z :=
  match u with
  | [] => fun v => Z.of_nat (length v)
  | x :: u' =>
      fix inner (v : list A) : Z :=
        match v with
        | [] => Z.of_nat (length u)
        | y :: v' =>
            min3 (editDistance u' v + 1) (inner v' + 1)
              (editDistance u' v' + (if decide (x = y) then 0 else 1))
        end
  end.

(** [EditScript u v n]: [u] becomes [v] by keeping characters and by [n]
    deletions, insertions and substitutions of one character. *)
Inductive EditScript {A : Type} : list A -> list A -> Z -> Prop :=
| edit_done : EditScript [] [] 0
| edit_keep (x : A) (u v : list A) (n : Z) :
    EditScript u v n -> EditScript (x :: u) (x :: v) n
| edit_substitute (x y : A) (u v : list A) (n : Z) :
    EditScript u v n -> EditScript (x :: u) (y :: v) (n + 1)
| edit_delete (x : A) (u v : list A) (n : Z) :
    EditScript u v n -> EditScript (x :: u) v (n + 1)
| edit_insert (y : A) (u v : list A) (n : Z) :
    EditScript u v n -> EditScript u (y :: v) (n + 1).

(** The characters of a string. *)
Definition characters (s : string) : list ascii := list_ascii_of_string s.

(** The table of the dynamic program: the distance of the prefixes of
    lengths [i] and [j], read from their last characters. *)
Definition prefixDistance {A : Type} `{EqDecision A} (u v : list A) (i j : nat) : Z :=
  editDistance (reverse (take i u)) (reverse (take j v)).

(** ** More example data *)

Section MoreExampleData.
#[local] Existing Instance exampleHost.

(** [command({ name: "copy", args: [source, ...targets], handler })] *)
Definition copyDefinition : CommandOptions :=
  mkCommandOptions "copy" None None
    (Some [mkPositionalArg "source" TString false false;
           mkPositionalArg "targets" TString false true])
    None None (Some "handler of copy") None.

(** What the constructor makes of [copyDefinition]. *)
Definition copyCommand : Command :=
  mkCommand "copy" None None
    [mkPositionalArg "source" TString false false;
     mkPositionalArg "targets" TString false true]
    [] [] (Some "handler of copy") None.

End MoreExampleData.

(** ** The negatable option of the worked example *)

Section NegationData.
Context `{Host}.

(** "an explicit no-<long> occurrence in argv resolves the option to
    false regardless of whether a plain occurrence is also present;
    otherwise a plain occurrence resolves it to true; otherwise the
    declared default is used" *)
Definition specNegatable (argv : list string) (opt : NormalizedOption) : Value number :=
  if has argv ("--no-" +:+ opt_long opt) then VBool false
  else if has argv ("--" +:+ opt_long opt) then VBool true
  else opt_default opt.

(** [command({ name: "my-cli", options: { color: { type: "boolean",
    negatable: true } }, handler })] *)
Definition colorDefinition : CommandOptions :=
  mkCommandOptions "my-cli" None None None
    (Some [("color", mkOption TBoolean None None false VUndefined false None true)])
    None (Some "handler of my-cli") None.

(** What the constructor makes of [colorDefinition]. *)
Definition colorCommand : Command :=
  mkCommand "my-cli" None None [] [("color", colorOption)] []
    (Some "handler of my-cli") None.
End NegationData.

(** ** A host whose tokenizer knows the negated form

    The tokenizer is a package of its own, outside the repository.  It
    reads [--no-<name>] as the entry [<name>: false], and never as an
    entry [no-<name>]; an occurrence [--<name>] of a name declared
    boolean adds [true] to what the entry holds, a second value making
    the entry a sequence.  This host does the same for these two shapes
    of token and takes every other token for a positional one; the
    rest is [exampleHost]. *)

Definition addValue (old : option (Value ExampleNumber)) (value : Value ExampleNumber)
    : Value ExampleNumber :=
  match old with
  | None | Some VUndefined => value
  | Some (VArray l) => VArray (l ++ [value])
  | Some v => VArray [v; value]
  end.

Definition negationTokenizer (argv : list string) (options : MriOptions)
    : Argv ExampleNumber :=
  fold_left (fun (out : Argv ExampleNumber) (arg : string) =>
      if startsWith arg "--no-" then
        let name := String.substring 5 (String.length arg - 5) arg in
        mkArgv (positionals out) (assocSet name (VBool false) (flags out))
      else if startsWith arg "--"
              && has (mri_boolean options)
                   (String.substring 2 (String.length arg - 2) arg) then
        let name := String.substring 2 (String.length arg - 2) arg in
        mkArgv (positionals out)
          (assocSet name (addValue (assocGet name (flags out)) (VBool true)) (flags out))
      else mkArgv (positionals out ++ [arg])%list (flags out))
    argv (mkArgv [] []).

Definition negationHost : Host := {|
  number := ExampleNumber;
  Number := exampleNumber;
  isNaN := fun n => match n with NaN => true | Int _ => false end;
  numberToString := fun n => match n with NaN => "NaN" | Int z => pretty z end;
  toLowerCase := stringLower;
  localeCompare := codeUnitCompare;
  mri := negationTokenizer;
|}.

(** * Theorems *)

(** ** The sort *)

Section SortTheory.
Context {A : Type} (cmp : A -> A -> Z).

Hypothesis cmp_total : forall a b, 0 < cmp a b -> cmp b a <= 0.

Lemma sortInsert_perm (x : A) (l : list A) : sortInsert cmp x l ≡ₚ x :: l.
Proof.
  induction l as [|y l IH]; simpl; [done|].
  destruct (0 <? cmp x y); [|done].
  rewrite IH. apply perm_swap.
Qed.

Lemma Array_sort_perm (l : list A) : Array_sort cmp l ≡ₚ l.
Proof.
  induction l as [|x l IH]; simpl; [done|].
  rewrite sortInsert_perm. by constructor.
Qed.

Lemma sortInsert_sorted (x : A) (l : list A) :
  Sorted (notAfter cmp) l -> Sorted (notAfter cmp) (sortInsert cmp x l).
Proof.
  induction l as [|y l IH]; intros Hs; simpl.
  - repeat constructor.
  - destruct (0 <? cmp x y) eqn:E.
    + apply Z.ltb_lt in E. apply Sorted_inv in Hs as [Hs Hhd].
      constructor; [by apply IH|].
      destruct l as [|z l]; simpl.
      * constructor. by apply cmp_total.
      * destruct (0 <? cmp x z); constructor.
        -- by inversion Hhd.
        -- by apply cmp_total.
    + apply Z.ltb_ge in E. constructor; [done|]. by constructor.
Qed.

Lemma Array_sort_sorted (l : list A) : Sorted (notAfter cmp) (Array_sort cmp l).
Proof.
  induction l as [|x l IH]; simpl; [constructor|].
  by apply sortInsert_sorted.
Qed.
End SortTheory.

Lemma Sorted_map_Forall {A B : Type} (R : A -> A -> Prop) (R' : B -> B -> Prop)
    (P : A -> Prop) (f : A -> B) (l : list A) :
  (forall a b, P a -> P b -> R a b -> R' (f a) (f b)) ->
  Forall P l -> Sorted R l -> Sorted R' (List.map f l).
Proof.
  intros HR HP Hs. induction Hs as [|a l Hs IH Hhd]; simpl; [constructor|].
  apply Forall_cons in HP as [Ha HP].
  constructor; [by apply IH|].
  destruct Hhd as [|b l' Hab]; simpl; constructor.
  apply Forall_cons in HP as [Hb _]. by apply HR.
Qed.

(** ** The suggestion engine *)

Section SuggestionTheory.
Context `{Host}.

Lemma levenshteinDistance_same (a : string) : levenshteinDistance a a = 0.
Proof. unfold levenshteinDistance. by rewrite String.eqb_refl. Qed.

Lemma keeps_qualifies (input : string) (thr : Z) (c : string) :
  keeps input thr c = qualifies input thr c.
Proof.
  unfold keeps, qualifies.
  destruct (String.eqb_spec input c) as [->|Hne].
  - rewrite String.eqb_refl, levenshteinDistance_same. simpl.
    by rewrite andb_false_r.
  - rewrite orb_true_r.
    destruct (String.eqb_spec c input) as [->|_]; [done|reflexivity].
Qed.

Lemma compareResults_total (a b : SuggestionResult) :
  (forall s t, 0 < localeCompare s t -> localeCompare t s <= 0) ->
  0 < compareResults a b -> compareResults b a <= 0.
Proof.
  intros Hcmp. unfold compareResults.
  destruct (Z.eqb_spec (distance a) (distance b)) as [E|E]; simpl.
  - rewrite E, Z.eqb_refl. simpl. apply Hcmp.
  - destruct (Z.eqb_spec (distance b) (distance a)); simpl; [congruence|lia].
Qed.

Lemma compareResults_ranks (input : string) (a b : SuggestionResult) :
  distance a = levenshteinDistance input (candidate a) ->
  distance b = levenshteinDistance input (candidate b) ->
  notAfter compareResults a b -> ranksBefore input (candidate a) (candidate b).
Proof.
  unfold notAfter, compareResults, ranksBefore. intros <- <-.
  destruct (Z.eqb_spec (distance a) (distance b)); simpl; intros Hle.
  - right. done.
  - left. lia.
Qed.

(** C8.  [findSuggestions]: an input of fewer than two characters gives
    no suggestion; the default threshold is the least of 3 and
    floor(0.4 × length) + 1; for a longer input the suggestions are the
    first three, in (distance, collation) order, of the candidates
    within the threshold that are not the input itself (a candidate that
    differs from the input only by case is one of them), so every
    suggestion qualifies, every qualifying candidate is returned unless
    three are already, and at most three are returned.  The collation
    is the host's, taken to be a consistent comparator. *)
Theorem findSuggestions_spec (input : string) (candidates : list string)
    (maxDistance : option Z)
    (localeCompare_total : forall s t, 0 < localeCompare s t -> localeCompare t s <= 0) :
  let result := findSuggestions input candidates maxDistance in
  let thr := threshold input maxDistance in
  ((String.length input < 2)%nat -> result = [])
  ∧ (exists k, 5 * k <= 2 * Z.of_nat (String.length input) < 5 * (k + 1)
               ∧ threshold input None = Z.min 3 (k + 1))
  ∧ (forall d, threshold input (Some d) = d)
  ∧ ((2 <= String.length input)%nat ->
     (forall c, c ∈ result ->
        c ∈ candidates ∧ levenshteinDistance input c <= thr ∧ c ≠ input)
     ∧ exists rest,
         result ++ rest ≡ₚ List.filter (qualifies input thr) candidates
         ∧ (rest ≠ [] -> length result = 3%nat)
         ∧ Sorted (ranksBefore input) (result ++ rest))
  ∧ (length result <= 3)%nat.
Proof.
  intros result thr.
  set (results := List.map (fun c => mkSuggestionResult c (levenshteinDistance input c))
                    (List.filter (keeps input thr) candidates)).
  set (sorted := Array_sort compareResults results).
  assert (Hres : (2 <= String.length input)%nat ->
                 result = List.map candidate (take 3 sorted)).
  { intros Hlen. unfold result, findSuggestions.
    destruct (Nat.ltb_spec (String.length input) 2); [lia|done]. }
  assert (Hperm : List.map candidate sorted
                  ≡ₚ List.filter (qualifies input thr) candidates).
  { unfold sorted. rewrite (Array_sort_perm compareResults results).
    unfold results. rewrite List.map_map. simpl. rewrite List.map_id.
    erewrite List.filter_ext; [done|]. intros c. apply keeps_qualifies. }
  split; [|split; [|split; [|split]]].
  - intros Hlen. unfold result, findSuggestions.
    destruct (Nat.ltb_spec (String.length input) 2); [done|lia].
  - exists (Z.of_nat (String.length input) * 4 / 10). split; [|done].
    pose proof (Z.div_mod (Z.of_nat (String.length input) * 4) 10 ltac:(lia)).
    pose proof (Z.mod_pos_bound (Z.of_nat (String.length input) * 4) 10 ltac:(lia)).
    lia.
  - done.
  - intros Hlen. rewrite (Hres Hlen). split.
    + intros c Hc.
      assert (Hin : c ∈ List.filter (qualifies input thr) candidates).
      { rewrite <- Hperm. rewrite <- (take_drop 3 sorted), List.map_app.
        apply elem_of_app. by left. }
      apply list_elem_of_In, List.filter_In in Hin as [Hin Hq].
      unfold qualifies in Hq. apply andb_prop in Hq as [Hd Hne].
      split; [by apply list_elem_of_In|]. split; [by apply Z.leb_le|].
      intros ->. by rewrite String.eqb_refl in Hne.
    + exists (List.map candidate (drop 3 sorted)).
      rewrite <- List.map_app, take_drop. split; [done|]. split.
      * intros Hrest. rewrite length_map, length_take.
        destruct (decide (length sorted <= 3)%nat) as [Hle|]; [|lia].
        rewrite drop_ge in Hrest by done. done.
      * apply (Sorted_map_Forall (notAfter compareResults) _
                 (fun r => distance r = levenshteinDistance input (candidate r))).
        -- intros a b Ha Hb. by apply compareResults_ranks.
        -- unfold sorted. rewrite (Array_sort_perm compareResults results).
           unfold results. apply Forall_forall. intros r Hr.
           apply list_elem_of_In, List.in_map_iff in Hr as (c & <- & _). done.
        -- apply Array_sort_sorted. intros a b.
           by apply compareResults_total.
  - unfold result, findSuggestions.
    destruct (String.length input <? 2)%nat; simpl; [lia|].
    rewrite length_map, length_take. lia.
Qed.
End SuggestionTheory.

(** ** The resolution of options *)

Ltac bind_case H :=
  match type of H with
  | bind ?m _ = _ => let E := fresh "E" in destruct m eqn:E; simpl in H
  end.

Section ResolutionTheory.
Context `{Host}.

Local Abbreviation Val := (Value number).

Lemma isUndefined_true (v : Val) : isUndefined v = true <-> v = VUndefined.
Proof. destruct v; simpl; split; congruence. Qed.

Lemma isUndefined_false (v : Val) : isUndefined v = false <-> v ≠ VUndefined.
Proof. destruct v; simpl; split; congruence. Qed.

Lemma isTrue_true (v : Val) : isTrue v = true <-> v = VBool true.
Proof. destruct v as [| [|] | | |]; simpl; split; congruence. Qed.

Lemma isTrue_false (v : Val) : isTrue v = false <-> v ≠ VBool true.
Proof. destruct v as [| [|] | | |]; simpl; split; congruence. Qed.

(** Coercing the elements of a sequence one by one: all of them, or the
    failure of the first one that is not a number. *)
Lemma mapThrowing_coerce (key : string) (l : list Val) :
  (Forall (fun v => isNaN (Number v) = false) l
   ∧ mapThrowing (fun v => let! n := coerceToNumber v key in Ok (VNumber n)) l
     = Ok (List.map (fun v => VNumber (Number v)) l))
  ∨ (¬ Forall (fun v => isNaN (Number v) = false) l
     ∧ mapThrowing (fun v => let! n := coerceToNumber v key in Ok (VNumber n)) l
       = Throw (InvalidOptionError (key +:+ " must be a number"))).
Proof.
  induction l as [|v l IH]; simpl.
  - left. split; [constructor|done].
  - unfold coerceToNumber at 1 3. destruct (isNaN (Number v)) eqn:E; simpl.
    + right. split; [|done]. intros Hall. apply Forall_cons in Hall as [Hv _].
      congruence.
    + destruct IH as [[Hall ->]|[Hnot ->]]; simpl.
      * left. split; [by constructor|done].
      * right. split; [|done]. intros Hall. apply Forall_cons in Hall as [_ Hl].
        by apply Hnot.
Qed.

Lemma optionValue_throws (parsed : Argv number) (key : string) (opt : NormalizedOption)
    (e : Exception) :
  optionValue parsed key opt = Throw e ->
  e = InvalidOptionError (key +:+ " must be a number").
Proof.
  unfold optionValue, extractMultipleOptionValue, coerceToNumber.
  destruct (opt_multiple opt).
  - destruct (isNumberType (opt_type opt)); simpl; [|done].
    match goal with |- context [mapThrowing ?f ?l] =>
      destruct (mapThrowing_coerce key l) as [[_ E]|[_ E]] end;
      unfold coerceToNumber in E; rewrite E; simpl; congruence.
  - destruct (isNumberType (opt_type opt)).
    + destruct (negb _); [|done].
      destruct (isNaN _); simpl; congruence.
    + destruct (_ && _); done.
Qed.

Lemma optionValue_multiple (parsed : Argv number) (key : string) (opt : NormalizedOption)
    (v : Val) :
  opt_multiple opt = true -> optionValue parsed key opt = Ok v ->
  exists l, v = VArray l.
Proof.
  unfold optionValue. intros ->. intros Hv. bind_case Hv; [|done].
  injection Hv as <-. eauto.
Qed.

(** Without a true [no-<long>] entry, a negatable boolean is its plain
    entry, or its default when there is none. *)
Lemma extractNegatableBoolean_plain (parsed : Argv number) (opt : NormalizedOption) :
  argvGet parsed ("no-" +:+ opt_long opt) ≠ VBool true ->
  extractNegatableBoolean parsed opt
  = if negb (isUndefined (argvGet parsed (opt_long opt)))
    then argvGet parsed (opt_long opt) else opt_default opt.
Proof.
  intros Hneg. unfold extractNegatableBoolean.
  destruct (argvGet parsed ("no-" +:+ opt_long opt)) as [| [|] | | |]; done.
Qed.

(** An absent [multiple] option is the empty sequence. *)
Lemma optionValue_multiple_absent (parsed : Argv number) (key : string)
    (opt : NormalizedOption) :
  opt_multiple opt = true -> argvGet parsed (opt_long opt) = VUndefined ->
  optionValue parsed key opt = Ok (VArray []).
Proof.
  intros Hmultiple Habsent. unfold optionValue, extractMultipleOptionValue.
  rewrite Hmultiple, Habsent. by destruct (isNumberType (opt_type opt)).
Qed.

(** What the loop of [extractOptionsFromDefs] leaves in the map. *)
Lemma extractOptionsInto_Ok (parsed : Argv number) (entries : NormalizedOptions)
    (m0 m : gmap string Val) :
  extractOptionsInto parsed entries m0 = Ok m ->
  (forall k, k ∉ keys entries -> m !! k = m0 !! k)
  ∧ (forall k, m0 !! k = None -> is_Some (m !! k) -> k ∈ keys entries)
  ∧ (NoDup (keys entries) -> forall key opt, (key, opt) ∈ entries ->
      exists v, optionValue parsed key opt = Ok v ∧ m !! key = Some v
                ∧ (opt_required opt = true -> v ≠ VUndefined)).
Proof.
  revert m0. induction entries as [|[key opt] rest IH]; intros m0 Hm; simpl in Hm.
  - injection Hm as <-. split; [done|]. split.
    + intros k Hk [v Hv]. congruence.
    + intros _ key opt Hin. by apply elem_of_nil in Hin.
  - bind_case Hm; [|done]. rewrite lookup_insert_eq in Hm. simpl in Hm.
    destruct (opt_required opt && isUndefined a) eqn:Ereq; [done|].
    apply IH in Hm as (Hout & Hdom & Hin). split; [|split].
    + intros k Hk. simpl in Hk. apply not_elem_of_cons in Hk as [Hk1 Hk2].
      rewrite (Hout k Hk2). by apply lookup_insert_ne.
    + intros k Hk Hs. simpl. destruct (decide (k = key)) as [->|Hne].
      * apply elem_of_cons. by left.
      * apply elem_of_cons. right. apply Hdom; [|done].
        by rewrite lookup_insert_ne.
    + intros Hnd key' opt' Hin'. simpl in Hnd. apply NoDup_cons in Hnd as [Hfresh Hnd].
      apply elem_of_cons in Hin' as [Heq|Hin'].
      * injection Heq as -> ->. exists a. split; [done|]. split.
        -- rewrite (Hout key Hfresh). apply lookup_insert_eq.
        -- intros Hr. rewrite Hr in Ereq. simpl in Ereq.
           by apply isUndefined_false.
      * by apply Hin.
Qed.

(** The loop throws what [optionValue] throws, or [MissingOptionError]
    for a required option whose value is undefined. *)
Lemma extractOptionsInto_Throw (parsed : Argv number) (entries : NormalizedOptions)
    (m0 : gmap string Val) (e : Exception) :
  extractOptionsInto parsed entries m0 = Throw e ->
  exists key opt, (key, opt) ∈ entries
    ∧ (optionValue parsed key opt = Throw e
       ∨ (optionValue parsed key opt = Ok VUndefined ∧ opt_required opt = true
          ∧ e = MissingOptionError (opt_long opt))).
Proof.
  revert m0. induction entries as [|[key opt] rest IH]; intros m0 Hm; simpl in Hm; [done|].
  bind_case Hm.
  - rewrite lookup_insert_eq in Hm. simpl in Hm.
    destruct (opt_required opt && isUndefined a) eqn:Ereq.
    + injection Hm as <-. apply andb_prop in Ereq as [Hr Hu].
      apply isUndefined_true in Hu as ->.
      exists key, opt. split; [apply elem_of_cons; by left|]. right. done.
    + apply IH in Hm as (key' & opt' & Hin & Hcase).
      exists key', opt'. split; [apply elem_of_cons; by right|done].
  - injection Hm as <-. exists key, opt. split; [apply elem_of_cons; by left|].
    by left.
Qed.
End ResolutionTheory.

Section ResolutionProperties.
Context `{Host}.

Local Abbreviation Val := (Value number).

(** C9.  A [multiple] option resolves to a sequence: the occurrences
    found by the tokenizer (none for an absent option, one for a scalar,
    all the elements of an array), each coerced on its own, in order; a
    number option with an occurrence that is not a number throws
    [InvalidOptionError] instead.  The value is never [undefined] and
    never a scalar, in [optionValue] and in the map that
    [extractOptionsFromDefs] returns. *)
Theorem extractMultipleOptionValue_sequence (value : Val) (opt : NormalizedOption)
    (key : string) :
  (Forall (coercible opt) (occurrences value) ->
     extractMultipleOptionValue value opt key
     = Ok (List.map (specCoerceToken opt) (occurrences value)))
  ∧ (¬ Forall (coercible opt) (occurrences value) ->
     extractMultipleOptionValue value opt key
     = Throw (InvalidOptionError (key +:+ " must be a number")))
  ∧ (value = VUndefined -> extractMultipleOptionValue value opt key = Ok [])
  ∧ (forall parsed : Argv number, opt_multiple opt = true ->
       (argvGet parsed (opt_long opt) = VUndefined ->
          optionValue parsed key opt = Ok (VArray []))
       ∧ (forall v, optionValue parsed key opt = Ok v ->
            v = VArray (List.map (specCoerceToken opt)
                          (occurrences (argvGet parsed (opt_long opt)))))
       ∧ (forall defs m, NoDup (keys defs) -> (key, opt) ∈ defs ->
            extractOptionsFromDefs parsed defs = Ok m ->
            m !! key = Some (VArray (List.map (specCoerceToken opt)
                                       (occurrences (argvGet parsed (opt_long opt))))))).
Proof.
  assert (Hcases :
    (Forall (coercible opt) (occurrences value)
     ∧ extractMultipleOptionValue value opt key
       = Ok (List.map (specCoerceToken opt) (occurrences value)))
    ∨ (¬ Forall (coercible opt) (occurrences value)
       ∧ extractMultipleOptionValue value opt key
         = Throw (InvalidOptionError (key +:+ " must be a number")))).
  { unfold extractMultipleOptionValue, coercible, specCoerceToken.
    fold (occurrences value).
    destruct (isNumberType (opt_type opt)).
    - destruct (mapThrowing_coerce key (occurrences value)) as [[Hall E]|[Hnot E]].
      + left. split; [|done]. eapply Forall_impl; [exact Hall|]. auto.
      + right. split; [|done]. intros Hall. apply Hnot.
        eapply Forall_impl; [exact Hall|]. auto.
    - left. split; [apply Forall_forall; intros; done|].
      by rewrite List.map_id. }
  split; [|split; [|split]].
  - intros Hall. destruct Hcases as [[_ E]|[Hnot _]]; [done|contradiction].
  - intros Hnot. destruct Hcases as [[Hall _]|[_ E]]; [contradiction|done].
  - intros ->. unfold extractMultipleOptionValue. simpl.
    by destruct (isNumberType (opt_type opt)).
  - intros parsed Hmult.
    assert (Hval : forall v, optionValue parsed key opt = Ok v ->
              v = VArray (List.map (specCoerceToken opt)
                            (occurrences (argvGet parsed (opt_long opt))))).
    { clear Hcases. intros v. unfold optionValue. rewrite Hmult.
      unfold extractMultipleOptionValue, specCoerceToken.
      fold (occurrences (argvGet parsed (opt_long opt))).
      destruct (isNumberType (opt_type opt)).
      - destruct (mapThrowing_coerce key (occurrences (argvGet parsed (opt_long opt))))
          as [[_ E]|[_ E]]; rewrite E; simpl; congruence.
      - simpl. rewrite List.map_id. congruence. }
    split; [|split].
    + intros Habs. by apply optionValue_multiple_absent.
    + exact Hval.
    + intros defs m Hnd Hin Hm.
      apply extractOptionsInto_Ok in Hm as (_ & _ & Hin').
      destruct (Hin' Hnd key opt Hin) as (v & Hv & Hlook & _).
      by rewrite Hlook, (Hval v Hv).
Qed.

(** C10.  An option that is both [multiple] and [required] never makes
    resolution throw [MissingOptionError]: whatever the tokenizer found
    and whatever the default, its entry is a sequence, which is not
    [undefined]; absent, it resolves to the empty sequence.  A
    [MissingOptionError] thrown by [extractOptionsFromDefs] always names
    a required option that is not [multiple]. *)
Theorem multiple_required_never_missing (parsed : Argv number) (key : string)
    (opt : NormalizedOption)
    (Hmultiple : opt_multiple opt = true) (Hrequired : opt_required opt = true) :
  (forall name, extractOptionsFromDefs parsed [(key, opt)] ≠ Throw (MissingOptionError name))
  ∧ (argvGet parsed (opt_long opt) = VUndefined ->
       extractOptionsFromDefs parsed [(key, opt)] = Ok {[ key := VArray [] ]})
  ∧ (forall defs name,
       extractOptionsFromDefs parsed defs = Throw (MissingOptionError name) ->
       exists k o, (k, o) ∈ defs ∧ opt_long o = name
                   ∧ opt_required o = true ∧ opt_multiple o = false).
Proof.
  assert (Hblame : forall defs name,
       extractOptionsFromDefs parsed defs = Throw (MissingOptionError name) ->
       exists k o, (k, o) ∈ defs ∧ opt_long o = name
                   ∧ opt_required o = true ∧ opt_multiple o = false).
  { intros defs name Hthrow.
    apply extractOptionsInto_Throw in Hthrow as (k & o & Hin & [Hv|(Hv & Hr & He)]).
    - apply optionValue_throws in Hv. done.
    - exists k, o. split; [done|]. injection He as ->. split; [done|]. split; [done|].
      destruct (opt_multiple o) eqn:Em; [|done].
      destruct (optionValue_multiple parsed k o VUndefined Em Hv) as [l Hl]. done. }
  split; [|split; [|exact Hblame]].
  - intros name Hthrow. apply Hblame in Hthrow as (k & o & Hin & _ & _ & Hm).
    apply list_elem_of_singleton in Hin. injection Hin as -> ->. congruence.
  - intros Habs. unfold extractOptionsFromDefs. simpl.
    unfold optionValue, extractMultipleOptionValue. rewrite Hmultiple, Habs.
    destruct (isNumberType (opt_type opt)); simpl;
      rewrite lookup_insert_eq; simpl; by rewrite andb_false_r.
Qed.

(** A [multiple] option resolves to the sequence of its coerced
    occurrences, or throws when one of them is not a number. *)
Lemma optionValue_multiple_occurrences (parsed : Argv number) (key : string)
    (opt : NormalizedOption) :
  opt_multiple opt = true ->
  (Forall (coercible opt) (occurrences (argvGet parsed (opt_long opt))) ->
     optionValue parsed key opt
     = Ok (VArray (List.map (specCoerceToken opt)
                     (occurrences (argvGet parsed (opt_long opt))))))
  ∧ (¬ Forall (coercible opt) (occurrences (argvGet parsed (opt_long opt))) ->
       optionValue parsed key opt
       = Throw (InvalidOptionError (key +:+ " must be a number"))).
Proof.
  intros Hmultiple. unfold optionValue. rewrite Hmultiple.
  unfold extractMultipleOptionValue, coercible, specCoerceToken.
  fold (occurrences (argvGet parsed (opt_long opt))).
  destruct (isNumberType (opt_type opt)).
  - destruct (mapThrowing_coerce key (occurrences (argvGet parsed (opt_long opt))))
      as [[Hall E]|[Hnot E]]; rewrite E; simpl.
    + split; [done|]. intros Hno. exfalso. apply Hno.
      eapply Forall_impl; [exact Hall|]. auto.
    + split; [|done]. intros Hall. exfalso. apply Hnot.
      eapply Forall_impl; [exact Hall|]. auto.
  - simpl. rewrite List.map_id. split; [done|]. intros Hno. exfalso. apply Hno.
    apply Forall_forall. intros v _ Hnumber. discriminate Hnumber.
Qed.

(** C1, as the code has it.  The entry of an option in the map is the
    value of [optionValue].  A token of a scalar option resolves to its
    coerced value (a token of a number option that is not a number
    throws [InvalidOptionError]); the tokens of a [multiple] option
    resolve to the sequence of the coerced occurrences, a single
    occurrence giving a sequence of one (an occurrence of a number
    option that is not a number throws [InvalidOptionError]); with no
    token, a scalar option that declares no environment fallback
    resolves to its declared default and a [multiple] one to the empty
    sequence, whatever its default.  A scalar option is one that is not
    [multiple]; a negatable boolean whose [no-<long>] entry is true
    resolves to [false]. *)
Theorem token_then_default (parsed : Argv number) (key : string) (opt : NormalizedOption) :
  let token := argvGet parsed (opt_long opt) in
  let negated :=
    isBooleanType (opt_type opt) && opt_negatable opt
    && isTrue (argvGet parsed ("no-" +:+ opt_long opt)) in
  (forall defs m, NoDup (keys defs) -> (key, opt) ∈ defs ->
     extractOptionsFromDefs parsed defs = Ok m ->
     exists v, optionValue parsed key opt = Ok v ∧ m !! key = Some v)
  ∧ (opt_multiple opt = false -> negated = false -> token ≠ VUndefined ->
       (coercible opt token ->
          optionValue parsed key opt = Ok (specCoerceToken opt token))
       ∧ (¬ coercible opt token ->
            optionValue parsed key opt
            = Throw (InvalidOptionError (key +:+ " must be a number"))))
  ∧ (opt_multiple opt = false -> negated = false -> token = VUndefined ->
       opt_env opt = None ->
       optionValue parsed key opt = Ok (opt_default opt))
  ∧ (opt_multiple opt = true -> token = VUndefined -> opt_env opt = None ->
       optionValue parsed key opt = Ok (VArray []))
  ∧ (opt_multiple opt = false -> negated = true ->
       optionValue parsed key opt = Ok (VBool false))
  ∧ (opt_multiple opt = true ->
       (Forall (coercible opt) (occurrences token) ->
          optionValue parsed key opt
          = Ok (VArray (List.map (specCoerceToken opt) (occurrences token))))
       ∧ (¬ Forall (coercible opt) (occurrences token) ->
            optionValue parsed key opt
            = Throw (InvalidOptionError (key +:+ " must be a number")))
       ∧ (token ≠ VUndefined -> (forall l, token ≠ VArray l) -> coercible opt token ->
            optionValue parsed key opt = Ok (VArray [specCoerceToken opt token]))).
Proof.
  intros token negated.
  split; [|split; [|split; [|split; [|split]]]].
  - intros defs m Hnd Hin Hm.
    apply extractOptionsInto_Ok in Hm as (_ & _ & Hin').
    destruct (Hin' Hnd key opt Hin) as (v & Hv & Hlook & _). eauto.
  - intros Hm Hneg Htok. apply isUndefined_false in Htok.
    unfold optionValue, coercible, specCoerceToken, coerceToNumber.
    fold token. rewrite Hm, Htok. simpl.
    destruct (isNumberType (opt_type opt)) eqn:Ety.
    + destruct (isNaN (Number token)) eqn:Enan; simpl; split; intros Hc;
        first [ done
              | specialize (Hc eq_refl); congruence
              | exfalso; apply Hc; done ].
    + assert (Hval : (if isBooleanType (opt_type opt) && opt_negatable opt
                      then Ok (extractNegatableBoolean parsed opt)
                      else Ok token) = Ok token :> Result Val).
      { destruct (isBooleanType (opt_type opt) && opt_negatable opt) eqn:Enb; [|done].
        unfold negated in Hneg. try rewrite Enb in Hneg. simpl in Hneg.
        apply isTrue_false in Hneg.
        rewrite (extractNegatableBoolean_plain parsed opt Hneg).
        fold token. by rewrite Htok. }
      split; intros Hc; [exact Hval|]. exfalso. apply Hc. done.
  - intros Hm Hneg Htok _. unfold optionValue. fold token. rewrite Hm, Htok. simpl.
    destruct (isNumberType (opt_type opt)); [done|].
    destruct (isBooleanType (opt_type opt) && opt_negatable opt) eqn:Enb; [|done].
    unfold negated in Hneg. try rewrite Enb in Hneg. simpl in Hneg.
    apply isTrue_false in Hneg.
    rewrite (extractNegatableBoolean_plain parsed opt Hneg).
    fold token. by rewrite Htok.
  - intros Hm Htok _. by apply optionValue_multiple_absent.
  - intros Hm Hneg. unfold negated in Hneg.
    apply andb_prop in Hneg as [Hnb Hneg]. apply isTrue_true in Hneg.
    apply andb_prop in Hnb as [Hb Hn].
    unfold optionValue. rewrite Hm.
    destruct (opt_type opt); try done. simpl. rewrite Hn.
    unfold extractNegatableBoolean. by rewrite Hneg.
  - intros Hm.
    destruct (optionValue_multiple_occurrences parsed key opt Hm) as [Hall Hnot].
    split; [exact Hall|]. split; [exact Hnot|].
    intros Htok Hscalar Hc.
    assert (Hone : occurrences token = [token]).
    { unfold token in *.
      destruct (argvGet parsed (opt_long opt)) as [| | | |l]; simpl;
        first [done | by destruct (Hscalar l)]. }
    fold token in Hall. rewrite Hone in Hall. apply Hall.
    apply Forall_cons. split; [exact Hc|apply Forall_nil_2].
Qed.
End ResolutionProperties.

(** ** Routing *)

Section RoutingTheory.
Context `{Host}.

Local Abbreviation Val := (Value number).

(** Induction over a command tree. *)
Section CommandInduction.
Variable P : Command -> Prop.
Hypothesis leaf_case : forall n d v a o i h, P (mkCommand n d v a o i h None).
Hypothesis parent_case : forall n d v a o i h subcommands,
  Forall (fun kv => P kv.2) subcommands ->
  P (mkCommand n d v a o i h (Some subcommands)).

Lemma Command_tree_ind (c : Command) : P c.
Proof.
  revert c. fix IH 1. intros [n d v a o i h [subcommands|]].
  - apply parent_case.
    induction subcommands as [|[k sub] subcommands IHsubs]; constructor.
    + apply IH.
    + exact IHsubs.
  - apply leaf_case.
Qed.
End CommandInduction.

Lemma assocGet_elem_of {V : Type} (k : string) (m : list (string * V)) (v : V) :
  assocGet k m = Some v -> (k, v) ∈ m.
Proof.
  induction m as [|[k' v'] m IH]; simpl; [done|].
  destruct (String.eqb_spec k' k) as [->|Hne]; intros Hv.
  - injection Hv as ->. apply elem_of_cons. by left.
  - apply elem_of_cons. right. by apply IH.
Qed.

Lemma runParentWith_ext
    (f g : string -> option (list string -> gmap string Val -> Result Invocation))
    (c : Command) (argv : list string) (inheritedOptions : gmap string Val) :
  (forall name, f name = g name) ->
  runParentWith f c argv inheritedOptions = runParentWith g c argv inheritedOptions.
Proof.
  intros Hfg. unfold runParentWith.
  destruct (extractOptions c _); simpl; [|done].
  destruct (head _); [|done]. destruct (_ || _); [done|]. by rewrite Hfg.
Qed.

(** [run] dispatches on [isParent], as in the source. *)
Lemma run_unfold (c : Command) (argv : list string) (inheritedOptions : gmap string Val) :
  run c argv inheritedOptions
  = if isParent c then runParent c argv inheritedOptions
    else runLeaf c argv inheritedOptions.
Proof.
  destruct c as [n d v a o i h subcommands]. simpl.
  destruct (isParent _); [|done].
  unfold runParent. apply runParentWith_ext. intros name.
  unfold getSubcommand. simpl. destruct subcommands as [m|]; [|done].
  induction m as [|[k sub] m IH]; simpl; [done|].
  destruct (String.eqb k name); [done|]. exact IH.
Qed.

Lemma typedRemaining_throws (arg : PositionalArg) (l : list string) (e : Exception) :
  mapThrowing (typedRemainingValue arg) l = Throw e -> thrownByRun e = true.
Proof.
  induction l as [|x l IH]; simpl; [done|].
  intros Hthrow. bind_case Hthrow.
  - bind_case Hthrow; [done|]. injection Hthrow as <-. by apply IH.
  - injection Hthrow as <-. unfold typedRemainingValue in E.
    destruct (arg_type arg); try done. destruct (isNaN _); [|done].
    by injection E as <-.
Qed.

Lemma extractArgsFrom_throws (parsed : Argv number) (args : list PositionalArg) (i : nat)
    (values : list Val) (e : Exception) :
  extractArgsFrom parsed args i values = Throw e -> thrownByRun e = true.
Proof.
  revert i values. induction args as [|arg rest IH]; intros i values; simpl; [done|].
  destruct (arg_variadic arg).
  - destruct (_ && _); [intros [= <-]; done|].
    intros Hthrow. bind_case Hthrow; [done|]. injection Hthrow as <-.
    by eapply typedRemaining_throws.
  - destruct (_ && _); [intros [= <-]; done|].
    destruct (arg_type arg); [apply IH| |apply IH].
    destruct (positionals parsed !! i); [|apply IH].
    destruct (isNaN _); [intros [= <-]; done|apply IH].
Qed.

Lemma extractOptionsFromDefs_throws (parsed : Argv number) (defs : NormalizedOptions)
    (e : Exception) :
  extractOptionsFromDefs parsed defs = Throw e -> thrownByRun e = true.
Proof.
  intros Hthrow.
  apply extractOptionsInto_Throw in Hthrow as (k & o & _ & [Hv|(_ & _ & ->)]); [|done].
  apply optionValue_throws in Hv as ->. done.
Qed.

Lemma runLeaf_throws (c : Command) (argv : list string) (inheritedOptions : gmap string Val)
    (e : Exception) :
  runLeaf c argv inheritedOptions = Throw e -> thrownByRun e = true.
Proof.
  unfold runLeaf. intros Hthrow.
  bind_case Hthrow; [|injection Hthrow as <-; by eapply extractArgsFrom_throws].
  bind_case Hthrow; [|injection Hthrow as <-; by eapply extractOptionsFromDefs_throws].
  bind_case Hthrow; [|injection Hthrow as <-; by eapply extractOptionsFromDefs_throws].
  destruct (cmd_handler c); [done|]. by injection Hthrow as <-.
Qed.

(** Every exception of [run] is one of [thrownByRun]. *)
Lemma run_throws (c : Command) :
  forall (argv : list string) (inheritedOptions : gmap string Val) (e : Exception),
    run c argv inheritedOptions = Throw e -> thrownByRun e = true.
Proof.
  induction c as [n d v a o i h|n d v a o i h subcommands IH] using Command_tree_ind;
    intros argv inheritedOptions e; rewrite run_unfold.
  - simpl. apply runLeaf_throws.
  - destruct (isParent _); [|apply runLeaf_throws].
    unfold runParent, runParentWith. intros Hthrow.
    bind_case Hthrow; [|injection Hthrow as <-; by eapply extractOptionsFromDefs_throws].
    destruct (head _) as [subcommandName|]; [|by injection Hthrow as <-].
    destruct (_ || _); [by injection Hthrow as <-|].
    unfold getSubcommand in Hthrow. simpl in Hthrow.
    destruct (assocGet subcommandName subcommands) as [sub|] eqn:Eget; simpl in Hthrow;
      [|by injection Hthrow as <-].
    apply assocGet_elem_of in Eget.
    rewrite Forall_forall in IH. by eapply (IH _ Eget).
Qed.
End RoutingTheory.

Section RoutingProperties.
Context `{Host}.

Local Abbreviation Val := (Value number).

(** C5, on the code.  [run] never throws [UnknownOptionError], whatever
    the tokenizer returns: the options object [command.ts] passes to
    the tokenizer has no hook for unknown flags and no statement of the
    file constructs this error.  For [command({ name: "test", options:
    { verbose }, handler })] and the single token [--unknown], the
    handler is called, with [verbose] as the tokenizer found it. *)
Theorem run_never_throws_UnknownOptionError :
  (forall (c : Command) (argv : list string) (inheritedOptions : gmap string Val)
          (unknownOption : string) (availableOptions suggestions : list string),
     run c argv inheritedOptions
     ≠ Throw (UnknownOptionError unknownOption availableOptions suggestions))
  ∧ (exists c parsed,
       newCommand testDefinition = Ok c
       ∧ parsed = mri ["--unknown"] (mkMriOptions ["verbose"] [] ∅)
       ∧ run c ["--unknown"] ∅
         = Ok (mkInvocation "handler of test" []
                 {[ "verbose" := argvGet parsed "verbose" ]})).
Proof.
  split.
  - intros c argv inheritedOptions u a s Hthrow.
    apply run_throws in Hthrow. done.
  - eexists. eexists. split; [reflexivity|]. split; [reflexivity|].
    rewrite run_unfold. simpl. unfold runLeaf, parseArgvWithOptions. simpl.
    unfold extractOptionsFromDefs, optionValue. simpl.
    set (parsed := mri _ _).
    assert (Hv : (if negb (isUndefined (argvGet parsed "verbose"))
                  then argvGet parsed "verbose" else VUndefined)
                 = argvGet parsed "verbose").
    { by destruct (argvGet parsed "verbose"). }
    rewrite Hv. simpl. reflexivity.
Qed.

(** Every [UnknownSubcommandError] that [run] throws has an empty
    suggestion list: [runParent] constructs it from the token and the
    child names alone. *)
Lemma run_UnknownSubcommandError_suggestions
    (c : Command) (argv : list string) (inheritedOptions : gmap string Val) :
  match run c argv inheritedOptions with
  | Throw (UnknownSubcommandError _ _ suggestions) => suggestions = []
  | _ => True
  end.
Proof.
  destruct (run c argv inheritedOptions) as [inv|e] eqn:Erun; [done|].
  apply run_throws in Erun.
  destruct e as [| | | | | sub avail suggestions | | | |]; try done.
  by destruct suggestions.
Qed.

Lemma assocSet_nonempty {V : Type} (k : string) (v : V) (m : list (string * V)) :
  assocSet k v m ≠ [].
Proof. destruct m as [|[k' v'] m]; simpl; [done|]. by destruct (String.eqb k' k). Qed.

Lemma assocSpread_nonempty {V : Type} (a b : list (string * V)) :
  b ≠ [] -> assocSpread a b ≠ [].
Proof.
  unfold assocSpread. revert a. induction b as [|kv b IH]; intros a Hb; [done|]. simpl.
  destruct b as [|kv' b]; [apply assocSet_nonempty|]. by apply IH.
Qed.

(** C3, as the code has it.  The constructor gives a definition with
    subcommands a node that is a parent and has no handler, whatever
    the definition says of a handler.  A parent whose own options
    resolve throws [MissingSubcommandError], with its name and the
    names of its children, when the tokenizer leaves no first
    positional, or an empty one, or one that starts with a dash. *)
Theorem parent_without_subcommand_token
    (c : Command) (argv : list string) (inheritedOptions parentOpts : gmap string Val)
    (Hparent : isParent c = true)
    (Hoptions : extractOptions c (parseArgvWithOptions argv (cmd_options c)) = Ok parentOpts)
    (Htoken :
       match head (positionals (parseArgvWithOptions argv (cmd_options c))) with
       | None => True
       | Some token => token = "" ∨ startsWith token "-" = true
       end) :
  run c argv inheritedOptions
  = Throw (MissingSubcommandError (cmd_name c) (getSubcommandNames c))
  ∧ (forall def subcommands, co_subcommands def = Some subcommands ->
       newCommand def = Ok c ->
       cmd_handler c = None
       ∧ getSubcommandNames c
         = keys (assocSpread [] (List.map (fun cmd => (cmd_name cmd, cmd)) subcommands))).
Proof.
  split.
  - rewrite run_unfold, Hparent. unfold runParent, runParentWith.
    rewrite Hoptions. simpl.
    destruct (head _) as [token|]; [|done].
    destruct Htoken as [->|Hdash]; [done|]. rewrite Hdash.
    by rewrite orb_true_r.
  - intros def subcommands Hsubs Hnew. unfold newCommand in Hnew. rewrite Hsubs in Hnew.
    destruct (Nat.eqb (length subcommands) 0); [done|]. simpl in Hnew.
    bind_case Hnew; [|done]. by injection Hnew as <-.
Qed.

(** Every definition with a non-empty list of subcommands that its
    constructor accepts becomes a parent. *)
Lemma newCommand_parent (def : CommandOptions) (c : Command) :
  is_Some (co_subcommands def) -> newCommand def = Ok c ->
  isParent c = true ∧ cmd_handler c = None.
Proof.
  intros [subcommands Hsubs] Hnew. unfold newCommand in Hnew. rewrite Hsubs in Hnew.
  destruct (Nat.eqb_spec (length subcommands) 0) as [|Hlen]; [done|]. simpl in Hnew.
  bind_case Hnew; [|done]. injection Hnew as <-. split; [|done].
  unfold isParent. simpl. apply Nat.ltb_lt.
  assert (Hne : assocSpread [] (List.map (fun cmd => (cmd_name cmd, cmd)) subcommands) ≠ []).
  { apply assocSpread_nonempty. by destruct subcommands. }
  destruct (assocSpread _ _); [done|]. simpl. lia.
Qed.

Lemma extractOptionsInto_keys (parsed : Argv number) (entries : NormalizedOptions)
    (m0 m : gmap string Val) (k : string) :
  extractOptionsInto parsed entries m0 = Ok m ->
  k ∈ keys entries ∨ is_Some (m0 !! k) -> is_Some (m !! k).
Proof.
  revert m0. induction entries as [|[key opt] rest IH]; intros m0 Hm Hk; simpl in Hm.
  - injection Hm as <-. destruct Hk as [Hk|Hk]; [|done]. by apply elem_of_nil in Hk.
  - bind_case Hm; [|done]. destruct (_ && _); [done|].
    apply (IH _ Hm). destruct Hk as [Hk|Hk].
    + simpl in Hk. apply elem_of_cons in Hk as [->|Hk]; [|by left].
      right. rewrite lookup_insert_eq. eauto.
    + right. destruct (decide (key = k)) as [->|Hne].
      * rewrite lookup_insert_eq. eauto.
      * by rewrite lookup_insert_ne.
Qed.

Lemma extractOptionsFromDefs_dom (parsed : Argv number) (defs : NormalizedOptions)
    (m : gmap string Val) (k : string) :
  extractOptionsFromDefs parsed defs = Ok m -> is_Some (m !! k) <-> k ∈ keys defs.
Proof.
  intros Hm. split.
  - intros Hs. apply extractOptionsInto_Ok in Hm as (_ & Hdom & _).
    by apply Hdom.
  - intros Hk. eapply extractOptionsInto_keys; [exact Hm|by left].
Qed.

(** C2, as the code has it.  A leaf whose arguments and options
    resolve calls its handler with the map that has, at every key, the
    value of the leaf's own options if the key is one of them, else the
    value passed down by the ancestors if there is one, else the value
    resolved at the leaf from its inherited option table.  Its keys are
    those of the two tables and of the map passed down. *)
Theorem leaf_option_precedence
    (c : Command) (argv : list string) (inheritedOptions : gmap string Val)
    (args : list Val) (ownOptions inheritedFromArgv : gmap string Val) (handler : Handler)
    (Hleaf : isParent c = false)
    (Hargs : extractArgs c
               (parseArgvWithOptions argv (assocSpread (cmd_inherits c) (cmd_options c)))
             = Ok args)
    (Hown : extractOptionsFromDefs
              (parseArgvWithOptions argv (assocSpread (cmd_inherits c) (cmd_options c)))
              (cmd_options c) = Ok ownOptions)
    (Hinherited : extractOptionsFromDefs
              (parseArgvWithOptions argv (assocSpread (cmd_inherits c) (cmd_options c)))
              (cmd_inherits c) = Ok inheritedFromArgv)
    (Hhandler : cmd_handler c = Some handler) :
  exists options,
    run c argv inheritedOptions = Ok (mkInvocation handler args options)
    ∧ (forall k,
         options !! k
         = match ownOptions !! k with
           | Some v => Some v
           | None =>
               match inheritedOptions !! k with
               | Some v => Some v
               | None => inheritedFromArgv !! k
               end
           end)
    ∧ (forall k, is_Some (ownOptions !! k) <-> k ∈ keys (cmd_options c))
    ∧ (forall k, is_Some (inheritedFromArgv !! k) <-> k ∈ keys (cmd_inherits c))
    ∧ (forall k, is_Some (options !! k)
                 <-> k ∈ keys (cmd_options c) ∨ k ∈ keys (cmd_inherits c)
                     ∨ is_Some (inheritedOptions !! k)).
Proof.
  exists (ownOptions ∪ (inheritedOptions ∪ inheritedFromArgv)).
  assert (Hlook : forall k,
         (ownOptions ∪ (inheritedOptions ∪ inheritedFromArgv)) !! k
         = match ownOptions !! k with
           | Some v => Some v
           | None =>
               match inheritedOptions !! k with
               | Some v => Some v
               | None => inheritedFromArgv !! k
               end
           end).
  { intros k. rewrite !lookup_union.
    destruct (ownOptions !! k), (inheritedOptions !! k), (inheritedFromArgv !! k); done. }
  split; [|split; [exact Hlook|split; [|split]]].
  - rewrite run_unfold, Hleaf. unfold runLeaf.
    rewrite Hargs. simpl. rewrite Hown. simpl. rewrite Hinherited. simpl.
    by rewrite Hhandler.
  - intros k. by apply extractOptionsFromDefs_dom with (parsed := parseArgvWithOptions argv (assocSpread (cmd_inherits c) (cmd_options c))).
  - intros k. by apply extractOptionsFromDefs_dom with (parsed := parseArgvWithOptions argv (assocSpread (cmd_inherits c) (cmd_options c))).
  - intros k. rewrite Hlook.
    rewrite <- (extractOptionsFromDefs_dom _ _ _ k Hown).
    rewrite <- (extractOptionsFromDefs_dom _ _ _ k Hinherited).
    destruct (ownOptions !! k), (inheritedOptions !! k), (inheritedFromArgv !! k);
      split; intros Hs; eauto; destruct Hs as [Hs|[Hs|Hs]]; eauto;
      by apply is_Some_None in Hs.
Qed.

Lemma has_reservedLong (long : string) :
  has reservedLong long = true -> long = "help" ∨ long = "version".
Proof.
  unfold has, reservedLong. simpl.
  destruct (String.eqb_spec long "help"); [by left|].
  destruct (String.eqb_spec long "version"); [by right|done].
Qed.

Lemma has_reservedShort (short : string) :
  has reservedShort short = true -> short = "h" ∨ short = "V".
Proof.
  unfold has, reservedShort. simpl.
  destruct (String.eqb_spec short "h"); [by left|].
  destruct (String.eqb_spec short "V"); [by right|done].
Qed.

(** [validateReservedOptions] throws for the first reserved name of
    the table, and only for one. *)
Lemma validateReservedOptions_reserved (options : NormalizedOptions) :
  existsb reserved (values options) = true ->
  exists flag, flag ∈ ["--help"; "--version"; "-h"; "-V"]
               ∧ validateReservedOptions options = Throw (ReservedOptionError flag).
Proof.
  induction options as [|[key opt] rest IH]; simpl; [done|].
  unfold reserved at 1.
  destruct (has reservedLong (opt_long opt)) eqn:Elong; simpl.
  - intros _. apply has_reservedLong in Elong as [->| ->]; eexists; split;
      [|reflexivity| |reflexivity]; set_solver.
  - destruct (opt_short opt) as [short|]; [|exact IH].
    destruct (has reservedShort short) eqn:Eshort; simpl.
    + intros _. apply has_reservedShort in Eshort as [->| ->]; simpl; eexists; split;
        [|reflexivity| |reflexivity]; set_solver.
    + rewrite andb_false_r. exact IH.
Qed.

Lemma validateReservedOptions_clean (options : NormalizedOptions) :
  existsb reserved (values options) = false ->
  validateReservedOptions options = Ok tt.
Proof.
  induction options as [|[key opt] rest IH]; simpl; [done|].
  unfold reserved at 1. intros Hnone. apply orb_false_elim in Hnone as [Hopt Hrest].
  apply orb_false_elim in Hopt as [Hlong Hshort]. rewrite Hlong.
  destruct (opt_short opt) as [short|]; [|by apply IH].
  rewrite Hshort, andb_false_r. by apply IH.
Qed.

(** C7, as the code has it.  A definition whose normalized own option
    table holds a reserved long name or short alias, or a leaf
    definition whose normalized inherited table does, is refused by the
    constructor: no node is built.  The exception is a
    [ReservedOptionError] for [--help], [--version], [-h] or [-V] when
    the checks that the constructor runs first pass; [run] never throws
    this error. *)
Theorem reserved_option_refused (def : CommandOptions)
    (Hreserved :
       existsb reserved (values (normalizeOptions (default [] (co_options def)))) = true
       ∨ (co_subcommands def = None
          ∧ existsb reserved (values (normalizeOptions (default [] (co_inherits def))))
            = true)) :
  (exists e, newCommand def = Throw e)
  ∧ (structurallyValid def ->
       exists flag, flag ∈ ["--help"; "--version"; "-h"; "-V"]
                    ∧ newCommand def = Throw (ReservedOptionError flag))
  ∧ (forall (c : Command) (argv : list string) (inheritedOptions : gmap string Val)
            (flag : string),
       run c argv inheritedOptions ≠ Throw (ReservedOptionError flag)).
Proof.
  assert (Hvalid : structurallyValid def ->
       exists flag, flag ∈ ["--help"; "--version"; "-h"; "-V"]
                    ∧ newCommand def = Throw (ReservedOptionError flag)).
  { unfold structurallyValid, newCommand.
    destruct (co_subcommands def) as [subcommands|] eqn:Esubs.
    - intros Hne. destruct Hreserved as [Hown|[? _]]; [|done].
      destruct (Nat.eqb_spec (length subcommands) 0) as [Hlen|_].
      { by destruct subcommands. }
      simpl. apply validateReservedOptions_reserved in Hown as (flag & Hflag & ->).
      eauto.
    - intros [-> ->]. simpl.
      destruct (existsb reserved
                  (values (normalizeOptions (default [] (co_inherits def))))) eqn:Einh.
      + apply validateReservedOptions_reserved in Einh as (flag & Hflag & ->).
        simpl. eauto.
      + rewrite (validateReservedOptions_clean _ Einh). simpl.
        destruct Hreserved as [Hown|[_ ?]]; [|done].
        apply validateReservedOptions_reserved in Hown as (flag & Hflag & ->).
        eauto. }
  split; [|split; [exact Hvalid|]].
  - unfold structurallyValid in Hvalid. unfold newCommand in *.
    destruct (co_subcommands def) as [subcommands|] eqn:Esubs.
    + destruct (Nat.eqb_spec (length subcommands) 0) as [Hlen|Hlen]; simpl; [eauto|].
      destruct Hvalid as (flag & _ & Hflag); [by intros ->|]. eauto.
    + destruct (validateArgs _) as [[]|e] eqn:Eargs; simpl; [|eauto].
      destruct (validateOptionConflicts _ _) as [[]|e] eqn:Econf; simpl; [|eauto].
      destruct Hvalid as (flag & _ & Hflag); [done|]. simpl in Hflag. eauto.
  - intros c argv inheritedOptions flag Hthrow. by apply run_throws in Hthrow.
Qed.
End RoutingProperties.

(** ** The negated form of a boolean option *)

Section NegationProperties.
Context `{Host}.

Local Abbreviation Val := (Value number).

(** C6 fails on the code.  For [command({ name: "my-cli", options:
    { color: { type: "boolean", negatable: true } }, handler })] and the
    tokens [--no-color --color], a tokenizer that reports the negated
    form as a false entry of [color], and so the two tokens as the
    sequence of [false] and [true] with no entry [no-color], makes the
    handler receive that sequence: [extractNegatableBoolean] looks for a
    true entry [no-color], finds none, and returns the plain entry as it
    is.  The claim gives [false]. *)
Theorem negated_then_plain_is_a_sequence
    (Hnegated :
       argvGet (mri ["--no-color"; "--color"] (mkMriOptions ["color"; "no-color"] [] ∅))
         "no-color" = VUndefined)
    (Hplain :
       argvGet (mri ["--no-color"; "--color"] (mkMriOptions ["color"; "no-color"] [] ∅))
         "color" = VArray [VBool false; VBool true]) :
  newCommand colorDefinition = Ok colorCommand
  ∧ run colorCommand ["--no-color"; "--color"] ∅
    = Ok (mkInvocation "handler of my-cli" []
            {[ "color" := VArray [VBool false; VBool true] ]})
  ∧ specNegatable ["--no-color"; "--color"] colorOption = VBool false.
Proof.
  split; [reflexivity|]. split; [|reflexivity].
  rewrite run_unfold. cbn -[argvGet]. unfold runLeaf, parseArgvWithOptions. cbn -[argvGet].
  unfold extractOptionsFromDefs, optionValue. cbn -[argvGet].
  unfold extractNegatableBoolean. cbn -[argvGet].
  change ("no-" +:+ "color") with "no-color".
  rewrite Hnegated, Hplain. cbn. reflexivity.
Qed.
End NegationProperties.

(** ** The worked examples: counterexamples and instances *)

Lemma codeUnitCompare_total (s t : string) :
  0 < codeUnitCompare s t -> codeUnitCompare t s <= 0.
Proof.
  unfold codeUnitCompare. rewrite (String.compare_antisym t s).
  destruct (String.compare s t); simpl; lia.
Qed.

Section Examples.
#[local] Existing Instance exampleHost.

(** C1 fails on the code.  With no token, the option [tag], which is
    [multiple] and declares the default "x", resolves to the empty
    sequence and not to its default; and the option [token], which
    declares the fallback [API_TOKEN] and the default "d", resolves to
    "d" where the chain of the specification gives the value "t" of the
    variable.  With the token "a", [tag] resolves to the sequence of
    that one value, where the chain gives the value itself. *)
Lemma precedence_chain_counterexample :
  extractOptionsFromDefs emptyArgv [("tag", tagOption)] = Ok {[ "tag" := VArray [] ]}
  ∧ specPrecedence ∅ emptyArgv tagOption = VString "x"
  ∧ extractOptionsFromDefs emptyArgv [("token", tokenOption)]
    = Ok {[ "token" := VString "d" ]}
  ∧ specPrecedence {[ "API_TOKEN" := "t" ]} emptyArgv tokenOption = VString "t"
  ∧ extractOptionsFromDefs (mkArgv [] [("tag", VString "a")]) [("tag", tagOption)]
    = Ok {[ "tag" := VArray [VString "a"] ]}
  ∧ specPrecedence ∅ (mkArgv [] [("tag", VString "a")]) tagOption = VString "a".
Proof. repeat split; vm_compute; reflexivity. Qed.

(** [token_then_default] at [port: { type: "number", default: 3000 }]:
    no token gives 3000, the token "8080" gives 8080, the token "x"
    throws [InvalidOptionError]; and at [tag], which is [multiple]: the
    token "a" gives the sequence of "a", the tokens "a" and "b" the
    sequence of both. *)
Lemma token_then_default_witness :
  optionValue emptyArgv "port" portOption = Ok (VNumber (Int 3000))
  ∧ optionValue (mkArgv [] [("port", VString "8080")]) "port" portOption
    = Ok (VNumber (Int 8080))
  ∧ optionValue (mkArgv [] [("port", VString "x")]) "port" portOption
    = Throw (InvalidOptionError "port must be a number")
  ∧ optionValue (mkArgv [] [("tag", VString "a")]) "tag" tagOption
    = Ok (VArray [VString "a"])
  ∧ optionValue (mkArgv [] [("tag", VArray [VString "a"; VString "b"])]) "tag" tagOption
    = Ok (VArray [VString "a"; VString "b"]).
Proof.
  split; [|split; [|split; [|split]]].
  4: { destruct (token_then_default (mkArgv [] [("tag", VString "a")]) "tag" tagOption)
         as (_ & _ & _ & _ & _ & Hmultiple).
       destruct (Hmultiple eq_refl) as (_ & _ & Hone).
       apply Hone; [discriminate|discriminate|].
       intros Hnumber. discriminate Hnumber. }
  4: { destruct (token_then_default
                   (mkArgv [] [("tag", VArray [VString "a"; VString "b"])]) "tag" tagOption)
         as (_ & _ & _ & _ & _ & Hmultiple).
       destruct (Hmultiple eq_refl) as (Hall & _).
       apply Hall. repeat (apply Forall_cons; split; [intros Hnumber; discriminate Hnumber|]).
       apply Forall_nil_2. }
  - destruct (token_then_default emptyArgv "port" portOption) as (_ & _ & Hdefault & _).
    apply Hdefault; reflexivity.
  - destruct (token_then_default (mkArgv [] [("port", VString "8080")]) "port" portOption)
      as (_ & Htoken & _).
    destruct Htoken as [Hcoerced _]; [reflexivity|reflexivity|discriminate|].
    apply Hcoerced. intros _. reflexivity.
  - destruct (token_then_default (mkArgv [] [("port", VString "x")]) "port" portOption)
      as (_ & Htoken & _).
    destruct Htoken as [_ Hthrows]; [reflexivity|reflexivity|discriminate|].
    apply Hthrows. intros Hc. specialize (Hc eq_refl). discriminate.
Defined.

(** C2 fails on the code.  The leaf [deploy] inherits [level], whose
    default is "a", and is run on the empty vector with the value "b"
    passed down for [level]: its handler receives "b", where the order
    of the specification gives "a". *)
Lemma leaf_merge_counterexample :
  newCommand deployDefinition = Ok deploy
  ∧ extractOptionsFromDefs (parseArgvWithOptions [] (cmd_inherits deploy))
      (cmd_inherits deploy) = Ok {[ "level" := VString "a" ]}
  ∧ run deploy [] {[ "level" := VString "b" ]}
    = Ok (mkInvocation "handler of deploy" [] {[ "level" := VString "b" ]})
  ∧ specLeafMerge ∅ {[ "level" := VString "a" ]} {[ "level" := VString "b" ]} !! "level"
    = Some (VString "a").
Proof. repeat split; vm_compute; reflexivity. Qed.

Lemma leaf_option_precedence_witness :
  exists options,
    run deploy [] {[ "level" := VString "b" ]}
    = Ok (mkInvocation "handler of deploy" [] options)
    ∧ options !! "level" = Some (VString "b").
Proof.
  destruct (leaf_option_precedence deploy [] {[ "level" := VString "b" ]} [] ∅
              {[ "level" := VString "a" ]} "handler of deploy"
              eq_refl eq_refl eq_refl eq_refl eq_refl)
    as (options & Hrun & Hlook & _).
  exists options. split; [exact Hrun|]. rewrite Hlook. reflexivity.
Defined.

(** C3 fails on the code.  A definition with a handler and a
    subcommand becomes a node without handler, and running it on the
    empty vector throws [MissingSubcommandError]; so does running the
    node that holds both the handler and the subcommand. *)
Lemma hybrid_fallback_counterexample :
  co_handler hybridDefinition = Some "default action"
  ∧ newCommand hybridDefinition = Ok hybrid
  ∧ cmd_handler hybrid = None
  ∧ run hybrid [] ∅ = Throw (MissingSubcommandError "cli" ["status"])
  ∧ run (mkCommand "cli" None None [] [] [] (Some "default action")
           (Some [("status", leafCommand "status")])) [] ∅
    = Throw (MissingSubcommandError "cli" ["status"]).
Proof. repeat split; vm_compute; reflexivity. Qed.

Lemma parent_without_subcommand_token_witness :
  run cli [] ∅ = Throw (MissingSubcommandError "cli" ["add"; "list"; "remove"]).
Proof.
  exact (proj1 (parent_without_subcommand_token cli [] ∅ ∅ eq_refl eq_refl I)).
Defined.

(** C4, on the code.  For the parent with the children add, list and
    remove and the token "addd", [run] throws [UnknownSubcommandError]
    with no suggestion, while the suggestion engine, asked for "addd"
    over the three names, answers "add"; and no [UnknownSubcommandError]
    thrown by [run], on any host, carries a suggestion. *)
Theorem unknown_subcommand_has_no_suggestion :
  newCommand cliDefinition = Ok cli
  ∧ run cli ["addd"] ∅
    = Throw (UnknownSubcommandError "addd" ["add"; "list"; "remove"] [])
  ∧ findSuggestions "addd" (getSubcommandNames cli) None = ["add"]
  ∧ (forall (H : Host) (c : Command) (argv : list string)
            (inheritedOptions : gmap string (Value number))
            (subcommand : string) (available suggestions : list string),
       run c argv inheritedOptions
       = Throw (UnknownSubcommandError subcommand available suggestions) ->
       suggestions = []).
Proof.
  split; [|split; [|split]]; try (vm_compute; reflexivity).
  intros H c argv inheritedOptions subcommand available suggestions Hthrow.
  pose proof (run_UnknownSubcommandError_suggestions c argv inheritedOptions) as Hs.
  by rewrite Hthrow in Hs.
Qed.

(** C7 fails on the code.  The definition gives the reserved long name
    [help] to an option and puts its variadic argument first: the
    constructor throws the plain error of the misplaced variadic
    argument, not a [ReservedOptionError]. *)
Lemma reserved_name_counterexample :
  existsb reserved
    (values (normalizeOptions (default [] (co_options variadicHelpDefinition)))) = true
  ∧ newCommand variadicHelpDefinition
    = Throw (Error "Variadic argument 'files' must be the last argument").
Proof. split; vm_compute; reflexivity. Qed.

Lemma reserved_option_refused_witness :
  exists flag, flag ∈ ["--help"; "--version"; "-h"; "-V"]
               ∧ newCommand helpDefinition = Throw (ReservedOptionError flag).
Proof.
  apply (reserved_option_refused helpDefinition (or_introl eq_refl)).
  split; reflexivity.
Defined.

(** C8 at the input "addd": the hypothesis holds of the comparison by
    code units, and the one suggestion is "add". *)
Lemma findSuggestions_spec_witness :
  (forall s t, 0 < codeUnitCompare s t -> codeUnitCompare t s <= 0)
  ∧ findSuggestions "addd" ["add"; "list"; "remove"] None = ["add"]
  ∧ (forall c, c ∈ findSuggestions "addd" ["add"; "list"; "remove"] None ->
       c ∈ ["add"; "list"; "remove"]
       ∧ levenshteinDistance "addd" c <= threshold "addd" None ∧ c ≠ "addd").
Proof.
  split; [exact codeUnitCompare_total|]. split; [vm_compute; reflexivity|].
  destruct (findSuggestions_spec (H := exampleHost) "addd" ["add"; "list"; "remove"] None
              codeUnitCompare_total) as (_ & _ & _ & Hlong & _).
  destruct Hlong as [Hsound _]; [vm_compute; lia|]. exact Hsound.
Defined.

(** C9 at a string option and a number option: one occurrence becomes
    a sequence of one, and a second occurrence that is not a number
    throws. *)
Lemma extractMultipleOptionValue_sequence_witness :
  extractMultipleOptionValue (VString "a") tagOption "tag" = Ok [VString "a"]
  ∧ extractMultipleOptionValue (VArray [VString "8080"; VString "abc"])
      (mkOption TNumber "port" None true VUndefined false None false) "port"
    = Throw (InvalidOptionError "port must be a number").
Proof.
  split.
  - apply (extractMultipleOptionValue_sequence (VString "a") tagOption "tag").
    constructor; [intros Hnumber; discriminate Hnumber|constructor].
  - apply (extractMultipleOptionValue_sequence (VArray [VString "8080"; VString "abc"])
             (mkOption TNumber "port" None true VUndefined false None false) "port").
    intros Hall. apply Forall_cons in Hall as [_ Hall].
    apply Forall_cons in Hall as [Habc _]. specialize (Habc eq_refl). discriminate.
Defined.

(** C10 at [files: { type: "string", multiple: true, required: true }]
    and the empty vector. *)
Lemma multiple_required_never_missing_witness :
  extractOptionsFromDefs emptyArgv [("files", filesOption)]
  = Ok {[ "files" := VArray [] ]}.
Proof.
  apply (multiple_required_never_missing emptyArgv "files" filesOption eq_refl eq_refl).
  reflexivity.
Defined.
End Examples.

Section NegationExamples.
#[local] Existing Instance negationHost.

(** [negated_then_plain_is_a_sequence] on the host whose tokenizer knows
    the negated form. *)
Lemma negated_then_plain_is_a_sequence_witness :
  mri ["--no-color"; "--color"] (mkMriOptions ["color"; "no-color"] [] ∅)
  = mkArgv [] [("color", VArray [VBool false; VBool true])]
  ∧ mri ["--no-color"] (mkMriOptions ["color"; "no-color"] [] ∅)
    = mkArgv [] [("color", VBool false)]
  ∧ run colorCommand ["--no-color"; "--color"] ∅
    = Ok (mkInvocation "handler of my-cli" []
            {[ "color" := VArray [VBool false; VBool true] ]}).
Proof.
  split; [reflexivity|]. split; [reflexivity|].
  destruct (negated_then_plain_is_a_sequence (H := negationHost)) as (_ & Hrun & _);
    [reflexivity|reflexivity|].
  exact Hrun.
Defined.
End NegationExamples.

(** * Further properties of the code *)

(** ** The constructor *)

Section ConstructionProperties.
Context `{Host}.

Lemma validateArgs_Ok_iff (args : list PositionalArg) :
  validateArgs args = Ok tt <-> variadicLast args.
Proof.
  unfold validateArgs, variadicLast.
  destruct (list_find _ args) as [[i arg]|] eqn:Efind.
  - apply list_find_Some in Efind as (Hi & Hvar & Hleast).
    pose proof (lookup_lt_Some _ _ _ Hi) as Hlt.
    destruct (Nat.eqb_spec i (length args - 1)) as [->|Hne]; simpl.
    + split; [intros _|done]. apply Forall_lookup. intros j a Hj.
      apply lookup_take_Some in Hj as [Hj Hjlt].
      specialize (Hleast j a Hj Hjlt). by destruct (arg_variadic a).
    + split; [done|]. intros Hall. exfalso.
      rewrite Forall_lookup in Hall.
      assert (Hlookup : take (length args - 1) args !! i = Some arg).
      { apply lookup_take_Some. split; [done|lia]. }
      specialize (Hall i arg Hlookup). simpl in Hall. congruence.
  - split; [intros _|done]. apply list_find_None in Efind.
    apply Forall_take. eapply Forall_impl; [exact Efind|].
    intros a Ha. simpl in Ha. by destruct (arg_variadic a).
Qed.

(** X1.  [validateArgs] accepts a list of arguments exactly when no
    argument but the last is variadic; otherwise its error names the
    first variadic argument. *)
Theorem validateArgs_variadicLast (args : list PositionalArg) :
  (validateArgs args = Ok tt <-> variadicLast args)
  ∧ (forall before arg rest,
       args = (before ++ arg :: rest)%list ->
       Forall (fun a => arg_variadic a = false) before ->
       arg_variadic arg = true -> rest ≠ [] ->
       validateArgs args
       = Throw (Error ("Variadic argument '" +:+ arg_name arg
                       +:+ "' must be the last argument"))).
Proof.
  split; [apply validateArgs_Ok_iff|].
  intros before arg rest -> Hbefore Hvar Hrest. unfold validateArgs.
  assert (Hfind : list_find (fun a => arg_variadic a = true) (before ++ arg :: rest)%list
                  = Some (length before, arg)).
  { apply list_find_Some. split; [|split; [done|]].
    - by rewrite lookup_app_r, Nat.sub_diag.
    - intros j y Hj Hlt. rewrite lookup_app_l in Hj by done.
      rewrite Forall_lookup in Hbefore. rewrite (Hbefore j y Hj). done. }
  rewrite Hfind. rewrite length_app. simpl.
  destruct (Nat.eqb_spec (length before) (length before + S (length rest) - 1)) as [Heq|_];
    [|done].
  destruct rest; [done|]. simpl in Heq. lia.
Qed.

Lemma assocSet_fresh {V : Type} (k : string) (v : V) (m : list (string * V)) :
  k ∉ keys m -> assocSet k v m = (m ++ [(k, v)])%list.
Proof.
  induction m as [|[k' v'] m IH]; simpl; [done|].
  intros Hk. apply not_elem_of_cons in Hk as [Hne Hk].
  destruct (String.eqb_spec k' k) as [->|_]; [done|]. by rewrite IH.
Qed.

Lemma assocSpread_fresh {V : Type} (a b : list (string * V)) :
  NoDup (keys a ++ keys b)%list -> assocSpread a b = (a ++ b)%list.
Proof.
  unfold assocSpread. revert a. induction b as [|[k v] b IH]; intros a Hnd; simpl.
  - by rewrite app_nil_r.
  - apply NoDup_app in Hnd as (Ha & Hdisj & Hb). simpl in Hb.
    apply NoDup_cons in Hb as [Hk Hb].
    rewrite assocSet_fresh.
    + rewrite IH; [by rewrite <- app_assoc|].
      unfold keys. rewrite List.map_app. simpl. apply NoDup_app. split; [|split; [|done]].
      * apply NoDup_app. split; [done|]. split; [|apply NoDup_singleton].
        intros x Hx Hx'. apply list_elem_of_singleton in Hx' as ->.
        apply (Hdisj k Hx). simpl. apply elem_of_cons. by left.
      * intros x Hx Hx'. apply elem_of_app in Hx as [Hx|Hx].
        -- apply (Hdisj x Hx). simpl. apply elem_of_cons. by right.
        -- apply list_elem_of_singleton in Hx as ->. done.
    + intros Hin. apply (Hdisj k Hin). simpl. apply elem_of_cons. by left.
Qed.

(** X2.  [normalizeOptions] keeps the keys of a table and their order,
    gives every option the long name it declares, or its key when it
    declares none, and leaves every other property as it is. *)
Theorem normalizeOptions_entries (options : Options) (Hkeys : NoDup (keys options)) :
  normalizeOptions options
  = List.map (fun kv =>
      (kv.1, mkOption (opt_type kv.2)
               (match opt_long kv.2 with Some l => l | None => kv.1 end)
               (opt_short kv.2) (opt_multiple kv.2) (opt_default kv.2)
               (opt_required kv.2) (opt_env kv.2) (opt_negatable kv.2)))
      options
  ∧ keys (normalizeOptions options) = keys options.
Proof.
  set (f := fun kv : string * Option =>
      (kv.1, mkOption (opt_type kv.2)
               (match opt_long kv.2 with Some l => l | None => kv.1 end)
               (opt_short kv.2) (opt_multiple kv.2) (opt_default kv.2)
               (opt_required kv.2) (opt_env kv.2) (opt_negatable kv.2))).
  assert (Hspread : normalizeOptions options = assocSpread [] (List.map f options)).
  { clear Hkeys. unfold normalizeOptions, assocSpread.
    assert (Hacc : forall acc : list (string * NormalizedOption),
              fold_left (fun normalized kv => assocSet kv.1 (f kv).2 normalized) options acc
              = fold_left (fun m kv => assocSet kv.1 kv.2 m) (List.map f options) acc).
    { induction options as [|kv options IH]; intros acc; simpl; [done|]. apply IH. }
    apply Hacc. }
  assert (Hk : keys (List.map f options) = keys options).
  { unfold keys. rewrite List.map_map. done. }
  assert (Heq : normalizeOptions options = List.map f options).
  { rewrite Hspread. rewrite assocSpread_fresh; [done|]. simpl. by rewrite Hk. }
  split; [exact Heq|]. by rewrite Heq.
Qed.

Lemma validateReservedOptions_Ok (options : NormalizedOptions) :
  validateReservedOptions options = Ok tt -> existsb reserved (values options) = false.
Proof.
  intros Hok. destruct (existsb reserved (values options)) eqn:E; [|done].
  apply validateReservedOptions_reserved in E as (flag & _ & Hthrow). congruence.
Qed.

Lemma validateOptionConflicts_Ok (options inherits : NormalizedOptions) :
  validateOptionConflicts options inherits = Ok tt <->
  (forall k, k ∈ keys options -> k ∉ keys inherits).
Proof.
  unfold validateOptionConflicts.
  set (conflicts := List.filter _ (keys options)).
  assert (Hconf : forall k, In k conflicts <-> k ∈ keys options ∧ k ∈ keys inherits).
  { intros k. unfold conflicts. rewrite List.filter_In, <- list_elem_of_In.
    rewrite existsb_exists. split.
    - intros [Hk (k' & Hin & Heq)]. apply String.eqb_eq in Heq as <-.
      split; [done|]. by apply list_elem_of_In.
    - intros [Hk Hin]. split; [done|]. exists k. split; [by apply list_elem_of_In|].
      apply String.eqb_refl. }
  destruct conflicts as [|k0 conflicts']; simpl.
  - split; [|done]. intros _ k Hk Hin. by apply (Hconf k).
  - split; [done|]. intros Hdisj. exfalso.
    destruct (proj1 (Hconf k0) (or_introl eq_refl)) as [Hk Hin]. by apply (Hdisj k0).
Qed.

(** X3.  Every command that the constructor returns is well formed: no
    option of its own or inherited table has a reserved long name or
    short alias, no key is in both tables, only its last argument may be
    variadic; a definition with subcommands gives a parent with no
    argument, no inherited option and no handler, any other definition a
    leaf with the arguments and the handler of the definition. *)
Theorem newCommand_invariants (def : CommandOptions) (c : Command)
    (Hnew : newCommand def = Ok c) :
  cmd_name c = co_name def
  ∧ cmd_options c = normalizeOptions (default [] (co_options def))
  ∧ existsb reserved (values (cmd_options c)) = false
  ∧ existsb reserved (values (cmd_inherits c)) = false
  ∧ (forall k, k ∈ keys (cmd_options c) -> k ∉ keys (cmd_inherits c))
  ∧ variadicLast (cmd_args c)
  ∧ match co_subcommands def with
    | Some subcommands =>
        subcommands ≠ [] ∧ isParent c = true ∧ cmd_args c = []
        ∧ cmd_inherits c = [] ∧ cmd_handler c = None
    | None =>
        isParent c = false ∧ cmd_args c = default [] (co_args def)
        ∧ cmd_inherits c = normalizeOptions (default [] (co_inherits def))
        ∧ cmd_handler c = co_handler def
    end.
Proof.
  pose proof Hnew as Hnew'. unfold newCommand in Hnew.
  destruct (co_subcommands def) as [subcommands|] eqn:Esubs.
  - destruct (newCommand_parent def c) as [Hparent Hhandler]; [by rewrite Esubs|done|].
    destruct (Nat.eqb_spec (length subcommands) 0) as [|Hlen]; [done|]. simpl in Hnew.
    bind_case Hnew; [|done]. injection Hnew as <-. destruct a. simpl.
    apply validateReservedOptions_Ok in E.
    split; [done|]. split; [done|]. split; [done|]. split; [done|].
    split; [intros k _ Hk; by apply elem_of_nil in Hk|].
    split; [by apply Forall_nil|].
    split; [by destruct subcommands|done].
  - destruct (validateArgs _) as [[]|] eqn:Eargs; [|done]. simpl in Hnew.
    destruct (validateOptionConflicts _ _) as [[]|] eqn:Econf; [|done]. simpl in Hnew.
    destruct (validateReservedOptions (normalizeOptions (default [] (co_inherits def))))
      as [[]|] eqn:Einh; [|done]. simpl in Hnew.
    bind_case Hnew; [|done]. injection Hnew as <-. destruct a. simpl.
    apply validateReservedOptions_Ok in E, Einh.
    pose proof (proj1 (validateOptionConflicts_Ok _ _) Econf) as Hdisj.
    apply validateArgs_Ok_iff in Eargs.
    done.
Qed.

Lemma assocGet_assocSet {V : Type} (k k' : string) (v : V) (m : list (string * V)) :
  assocGet k' (assocSet k v m) = if decide (k = k') then Some v else assocGet k' m.
Proof.
  induction m as [|[k0 v0] m IH]; simpl.
  - destruct (String.eqb_spec k k'); by case_decide.
  - destruct (String.eqb_spec k0 k) as [->|Hne]; simpl.
    + destruct (String.eqb_spec k k'); by case_decide.
    + rewrite IH. destruct (String.eqb_spec k0 k') as [->|]; [|done].
      case_decide; [congruence|done].
Qed.

Lemma keys_assocSet {V : Type} (k : string) (v : V) (m : list (string * V)) :
  keys (assocSet k v m) = if decide (k ∈ keys m) then keys m else (keys m ++ [k])%list.
Proof.
  induction m as [|[k0 v0] m IH]; [done|]. simpl.
  destruct (String.eqb_spec k0 k) as [->|Hne]; simpl.
  - rewrite decide_True; [done|]. apply elem_of_cons. by left.
  - rewrite IH. destruct (decide (k ∈ keys m)) as [Hin|Hnin].
    + rewrite decide_True; [done|]. apply elem_of_cons. by right.
    + rewrite decide_False; [done|]. intros [->|Hin]%elem_of_cons; done.
Qed.

(** [new Map(entries)] and [{...a, ...b}]: the value of a key is that of
    its last entry, and the keys are the distinct keys, each at the place
    of its first entry. *)
Lemma assocSpread_lookup {V : Type} (a b : list (string * V)) (k : string) :
  assocGet k (assocSpread a b)
  = match last (filter (fun kv => kv.1 = k) b) with
    | Some kv => Some kv.2
    | None => assocGet k a
    end.
Proof.
  unfold assocSpread. revert a. induction b as [|[k0 v0] b IH]; intros a; simpl; [done|].
  rewrite IH, filter_cons. simpl.
  destruct (decide (k0 = k)) as [->|Hne].
  - rewrite last_cons. destruct (last (filter _ b)); [done|].
    rewrite assocGet_assocSet. by rewrite decide_True.
  - destruct (last (filter _ b)); [done|].
    rewrite assocGet_assocSet. by rewrite decide_False.
Qed.

Lemma assocSpread_keys {V : Type} (a b : list (string * V)) :
  NoDup (keys a) ->
  NoDup (keys (assocSpread a b))
  ∧ (forall k, k ∈ keys (assocSpread a b) <-> k ∈ keys a ∨ k ∈ keys b).
Proof.
  unfold assocSpread. revert a. induction b as [|[k0 v0] b IH]; intros a Hnd; simpl.
  - split; [done|]. intros k. split; [by left|]. intros [?|Hk]; [done|].
    by apply elem_of_nil in Hk.
  - assert (Hnd' : NoDup (keys (assocSet k0 v0 a))).
    { rewrite keys_assocSet. case_decide; [done|].
      apply NoDup_app. split; [done|]. split; [|apply NoDup_singleton].
      intros x Hx ->%list_elem_of_singleton. done. }
    destruct (IH _ Hnd') as [Hnodup Hmem]. split; [done|].
    intros k. rewrite Hmem, keys_assocSet. rewrite elem_of_cons.
    case_decide as Hin.
    + split; [intros [?|?]; [by left|by right; right]|].
      intros [?|[->|?]]; [by left|by left|by right].
    + rewrite elem_of_app, list_elem_of_singleton.
      split; [intros [[?|?]|?]|intros [?|[?|?]]]; eauto.
Qed.

(** X4.  The subcommands of a parent are found by name, a later
    subcommand replacing an earlier one of the same name; the names are
    listed once each, and in the order of the definition when they are
    distinct, in which case every subcommand of the definition is found
    under its own name. *)
Theorem subcommands_by_name (def : CommandOptions) (subcommands : list Command)
    (c : Command)
    (Hsubs : co_subcommands def = Some subcommands) (Hnew : newCommand def = Ok c) :
  (forall name,
     getSubcommand c name = last (filter (fun sub => cmd_name sub = name) subcommands))
  ∧ NoDup (getSubcommandNames c)
  ∧ (forall name, name ∈ getSubcommandNames c <-> name ∈ List.map cmd_name subcommands)
  ∧ (NoDup (List.map cmd_name subcommands) ->
       getSubcommandNames c = List.map cmd_name subcommands
       ∧ forall sub, sub ∈ subcommands -> getSubcommand c (cmd_name sub) = Some sub).
Proof.
  assert (Hmap : cmd_subcommands c
                 = Some (assocSpread [] (List.map (fun cmd => (cmd_name cmd, cmd)) subcommands))).
  { unfold newCommand in Hnew. rewrite Hsubs in Hnew.
    destruct (Nat.eqb (length subcommands) 0); [done|]. simpl in Hnew.
    bind_case Hnew; [|done]. by injection Hnew as <-. }
  set (entries := List.map (fun cmd => (cmd_name cmd, cmd)) subcommands) in *.
  assert (Hkeys : keys entries = List.map cmd_name subcommands).
  { unfold keys, entries. by rewrite List.map_map. }
  assert (Hget : forall name,
     getSubcommand c name = last (filter (fun sub => cmd_name sub = name) subcommands)).
  { intros name. unfold getSubcommand. rewrite Hmap, assocSpread_lookup. simpl.
    unfold entries. clear. induction subcommands as [|sub subcommands IH]; [done|].
    simpl. rewrite !filter_cons. simpl.
    destruct (decide (cmd_name sub = name)); [|exact IH].
    rewrite !last_cons.
    destruct (last (filter _ (List.map _ subcommands))) as [kv|],
             (last (filter _ subcommands)) as [sub'|]; simpl in *; congruence. }
  destruct (assocSpread_keys [] entries (NoDup_nil_2)) as [Hnodup Hmem].
  split; [exact Hget|]. split; [|split].
  - unfold getSubcommandNames. by rewrite Hmap.
  - intros name. unfold getSubcommandNames. rewrite Hmap, Hmem, Hkeys.
    split; [intros [Hk|?]; [by apply elem_of_nil in Hk|done]|by right].
  - intros Hdistinct. split.
    + unfold getSubcommandNames. rewrite Hmap, assocSpread_fresh; [done|].
      simpl. by rewrite Hkeys.
    + intros sub Hsub. rewrite Hget.
      apply list_elem_of_split in Hsub as (l1 & l2 & ->).
      rewrite List.map_app in Hdistinct. simpl in Hdistinct.
      apply NoDup_app in Hdistinct as (_ & Hdisj & Hnd2).
      apply NoDup_cons in Hnd2 as [Hfresh _].
      rewrite filter_app, filter_cons. rewrite decide_True by done.
      assert (Hnone : filter (fun sub0 => cmd_name sub0 = cmd_name sub) l2 = []).
      { destruct (filter _ l2) as [|sub' rest] eqn:Efilter; [done|]. exfalso.
        assert (Hin : sub' ∈ filter (fun sub0 => cmd_name sub0 = cmd_name sub) l2).
        { rewrite Efilter. apply elem_of_cons. by left. }
        apply list_elem_of_filter in Hin as [Hname Hin]. apply Hfresh.
        rewrite <- Hname. apply list_elem_of_In, List.in_map, list_elem_of_In, Hin. }
      by rewrite Hnone, last_snoc.
Qed.
End ConstructionProperties.

Section ExtractionProperties.
Context `{Host}.

Local Abbreviation Val := (Value number).

Lemma variadicLast_cons (arg arg' : PositionalArg) (rest : list PositionalArg) :
  variadicLast (arg :: arg' :: rest) ->
  arg_variadic arg = false ∧ variadicLast (arg' :: rest).
Proof.
  unfold variadicLast. simpl. rewrite Nat.sub_0_r. intros Hall.
  by apply Forall_cons in Hall.
Qed.

Lemma take_1_drop {A : Type} (l : list A) (k : nat) :
  take 1 (drop k l) = match l !! k with Some x => [x] | None => [] end.
Proof.
  revert k. induction l as [|x l IH]; intros [|k]; simpl;
    first [done | by rewrite take_0 | apply IH].
Qed.

Lemma mapThrowing_typedRemaining (arg : PositionalArg) (tokens : list string) :
  mapThrowing (typedRemainingValue arg) tokens
  = if isNumberType (arg_type arg)
       && existsb (fun token => isNaN (Number (VString token))) tokens
    then Throw (InvalidArgumentError (arg_name arg +:+ " values must be numbers"))
    else Ok (List.map (coerceArg arg) tokens).
Proof.
  induction tokens as [|token tokens IH]; simpl.
  - by rewrite andb_false_r.
  - rewrite IH. unfold typedRemainingValue, coerceArg.
    destruct (arg_type arg); simpl; try done.
    destruct (isNaN (Number (VString token))); simpl; [done|].
    by destruct (existsb _ tokens).
Qed.

Lemma extractArgsFrom_spec (parsed : Argv number) (args : list PositionalArg)
    (i : nat) (values : list Val) :
  variadicLast args ->
  match extractArgsFrom parsed args i values with
  | Ok result =>
      result = (values ++ imap (fun k => positionalValue (positionals parsed) (i + k)) args)%list
      ∧ forall k arg, args !! k = Some arg ->
          argFailure (positionals parsed) (i + k) arg = None
  | Throw e =>
      exists k arg, args !! k = Some arg
        ∧ argFailure (positionals parsed) (i + k) arg = Some e
        ∧ forall j a, (j < k)%nat -> args !! j = Some a ->
            argFailure (positionals parsed) (i + j) a = None
  end.
Proof.
  revert i values. induction args as [|arg rest IH]; intros i values Hlast.
  - simpl. split; [by rewrite app_nil_r|done].
  - assert (Hhere : arg_variadic arg = true -> rest = []).
    { intros Hvar. destruct rest as [|arg' rest]; [done|].
      apply variadicLast_cons in Hlast as [Hno _]. congruence. }
    assert (Hrest : variadicLast rest).
    { destruct rest as [|arg' rest]; [by apply Forall_nil|].
      by apply variadicLast_cons in Hlast as [_ ?]. }
    simpl. unfold argFailure, positionalValue.
    destruct (arg_variadic arg) eqn:Evar.
    + rewrite (Hhere eq_refl). rewrite Nat.add_0_r.
      destruct (negb (arg_optional arg) && Nat.eqb (length (drop i (positionals parsed))) 0)
        eqn:Emissing.
      * exists 0%nat, arg. split; [done|]. rewrite Nat.add_0_r.
        unfold argFailure. rewrite Evar, Emissing. split; [done|]. intros j a Hj. lia.
      * rewrite mapThrowing_typedRemaining.
        destruct (isNumberType (arg_type arg) && existsb _ _) eqn:Einvalid; simpl.
        -- exists 0%nat, arg. split; [done|]. rewrite Nat.add_0_r.
           unfold argFailure. rewrite Evar, Emissing, Einvalid. split; [done|].
           intros j a Hj. lia.
        -- split; [done|]. intros [|k] arg0 Hk; [|done]. injection Hk as <-.
           rewrite Nat.add_0_r. unfold argFailure. by rewrite Evar, Emissing, Einvalid.
    + assert (Hfail : forall e,
        argFailure (positionals parsed) i arg = Some e ->
        exists k arg0, (arg :: rest) !! k = Some arg0
          ∧ argFailure (positionals parsed) (i + k) arg0 = Some e
          ∧ forall j a, (j < k)%nat -> (arg :: rest) !! j = Some a ->
              argFailure (positionals parsed) (i + j) a = None).
      { intros e He. exists 0%nat, arg. rewrite Nat.add_0_r. split; [done|].
        split; [done|]. intros j a Hj. lia. }
      assert (Hnext : forall v,
        argFailure (positionals parsed) i arg = None ->
        v = match positionals parsed !! i with
            | Some token => coerceArg arg token
            | None => VUndefined
            end ->
        match extractArgsFrom parsed rest (S i) (values ++ [v])%list with
        | Ok result =>
            result = (values ++ v :: imap (fun k => positionalValue (positionals parsed) (i + S k)) rest)%list
            ∧ forall k arg0, (arg :: rest) !! k = Some arg0 ->
                argFailure (positionals parsed) (i + k) arg0 = None
        | Throw e =>
            exists k arg0, (arg :: rest) !! k = Some arg0
              ∧ argFailure (positionals parsed) (i + k) arg0 = Some e
              ∧ forall j a, (j < k)%nat -> (arg :: rest) !! j = Some a ->
                  argFailure (positionals parsed) (i + j) a = None
        end).
      { intros v Hok Hv. specialize (IH (S i) (values ++ [v])%list Hrest).
        destruct (extractArgsFrom parsed rest (S i) (values ++ [v])%list) as [result|e].
        - destruct IH as [-> Hall]. split.
          + rewrite <- app_assoc. simpl. do 2 f_equal. apply imap_ext.
            intros k a _. simpl. f_equal. lia.
          + intros [|k] arg0 Hk.
            * injection Hk as <-. by rewrite Nat.add_0_r.
            * simpl in Hk. replace (i + S k)%nat with (S i + k)%nat by lia. eauto.
        - destruct IH as (k & arg0 & Hk & He & Hbefore).
          exists (S k), arg0. split; [done|].
          replace (i + S k)%nat with (S i + k)%nat by lia. split; [done|].
          intros [|j] a Hj Ha.
          + injection Ha as <-. by rewrite Nat.add_0_r.
          + simpl in Ha. replace (i + S j)%nat with (S i + j)%nat by lia.
            apply (Hbefore j a); [lia|done]. }
      unfold argFailure in Hfail, Hnext. rewrite Evar in Hfail, Hnext.
      rewrite take_1_drop in Hfail, Hnext. rewrite Nat.add_0_r. unfold coerceArg in *.
      destruct (positionals parsed !! i) as [token|] eqn:Etoken; simpl in *.
      * rewrite andb_false_r in *. rewrite orb_false_r in *.
        destruct (arg_type arg); simpl in *.
        -- by apply Hnext.
        -- destruct (isNaN (Number (VString token))); [by apply Hfail|by apply Hnext].
        -- by apply Hnext.
      * rewrite andb_true_r in *. rewrite andb_false_r in *.
        destruct (arg_optional arg); simpl in *; [|by apply Hfail].
        destruct (arg_type arg); by apply Hnext.
Qed.

(** X5.  For a command whose arguments have the variadic one last,
    [extractArgs] returns one value per argument, the typed token at the
    index of the argument ([undefined] without a token, the sequence of
    all remaining typed tokens for the variadic argument), when no
    argument meets an error; otherwise it throws the error of the first
    argument that meets one. *)
Theorem extractArgs_positional (c : Command) (parsed : Argv number)
    (Hlast : variadicLast (cmd_args c)) :
  match extractArgs c parsed with
  | Ok values =>
      values = imap (positionalValue (positionals parsed)) (cmd_args c)
      ∧ forall k arg, cmd_args c !! k = Some arg ->
          argFailure (positionals parsed) k arg = None
  | Throw e =>
      exists k arg, cmd_args c !! k = Some arg
        ∧ argFailure (positionals parsed) k arg = Some e
        ∧ forall j a, (j < k)%nat -> cmd_args c !! j = Some a ->
            argFailure (positionals parsed) j a = None
  end.
Proof.
  unfold extractArgs. exact (extractArgsFrom_spec parsed (cmd_args c) 0 [] Hlast).
Qed.

Lemma extractOptionsInto_first_failure (parsed : Argv number)
    (entries : NormalizedOptions) (m0 : gmap string Val) :
  match extractOptionsInto parsed entries m0 with
  | Ok m => Forall (fun entry => entryFailure parsed entry = None) entries
  | Throw e =>
      exists before entry after,
        entries = (before ++ entry :: after)%list
        ∧ Forall (fun entry => entryFailure parsed entry = None) before
        ∧ entryFailure parsed entry = Some e
  end.
Proof.
  revert m0. induction entries as [|[key opt] rest IH]; intros m0; simpl.
  - by apply Forall_nil.
  - destruct (optionValue parsed key opt) as [v|e] eqn:Ev; simpl.
    + rewrite lookup_insert_eq. simpl.
      destruct (opt_required opt && isUndefined v) eqn:Ereq.
      * exists [], (key, opt), rest. split; [done|]. split; [by apply Forall_nil|].
        unfold entryFailure. simpl. by rewrite Ev, Ereq.
      * assert (Hhere : entryFailure parsed (key, opt) = None).
        { unfold entryFailure. simpl. by rewrite Ev, Ereq. }
        specialize (IH (<[key := v]> m0)).
        destruct (extractOptionsInto parsed rest _) as [m|e].
        -- by apply Forall_cons.
        -- destruct IH as (before & entry & after & -> & Hbefore & Hentry).
           exists ((key, opt) :: before), entry, after. split; [done|].
           split; [by apply Forall_cons|done].
    + exists [], (key, opt), rest. split; [done|]. split; [by apply Forall_nil|].
      unfold entryFailure. simpl. by rewrite Ev.
Qed.

(** X6.  [extractOptionsFromDefs] goes through the table in its order:
    it returns a record with exactly the keys of the table when no entry
    meets an error, and otherwise throws the error of the first entry
    that meets one. *)
Theorem extractOptionsFromDefs_first_failure (parsed : Argv number)
    (optionDefs : NormalizedOptions) :
  match extractOptionsFromDefs parsed optionDefs with
  | Ok optionValues =>
      Forall (fun entry => entryFailure parsed entry = None) optionDefs
      ∧ forall key, is_Some (optionValues !! key) <-> key ∈ keys optionDefs
  | Throw e =>
      exists before entry after,
        optionDefs = (before ++ entry :: after)%list
        ∧ Forall (fun entry => entryFailure parsed entry = None) before
        ∧ entryFailure parsed entry = Some e
  end.
Proof.
  unfold extractOptionsFromDefs.
  pose proof (extractOptionsInto_first_failure parsed optionDefs ∅) as Hloop.
  destruct (extractOptionsInto parsed optionDefs ∅) as [m|e] eqn:Em; [|done].
  split; [done|]. intros key.
  exact (extractOptionsFromDefs_dom parsed optionDefs m key Em).
Qed.
End ExtractionProperties.

Section DispatchProperties.
Context `{Host}.

Local Abbreviation Val := (Value number).

(** X7.  A parent whose own options resolve and whose first positional
    token is a plain word runs the subcommand of that name, on the
    rebuilt argument list and with the options passed down merged with
    its own: a defined value of the parent overrides the value passed
    down under the same key, an undefined one leaves it in place.  It
    throws [UnknownSubcommandError] when no subcommand has that name. *)
Theorem parent_routes_first_positional
    (c : Command) (argv : list string) (inheritedOptions parentOpts : gmap string Val)
    (token : string)
    (Hparent : isParent c = true)
    (Hoptions : extractOptions c (parseArgvWithOptions argv (cmd_options c)) = Ok parentOpts)
    (Htoken : head (positionals (parseArgvWithOptions argv (cmd_options c))) = Some token)
    (Hword : token ≠ "" ∧ startsWith token "-" = false) :
  match getSubcommand c token with
  | Some sub =>
      exists merged,
        run c argv inheritedOptions
        = run sub
            (reconstructArgv c
               (tail (positionals (parseArgvWithOptions argv (cmd_options c))))
               (parseArgvWithOptions argv (cmd_options c)))
            merged
        ∧ forall key,
            merged !! key
            = match parentOpts !! key with
              | Some v => if isUndefined v then inheritedOptions !! key else Some v
              | None => inheritedOptions !! key
              end
  | None =>
      run c argv inheritedOptions
      = Throw (UnknownSubcommandError token (getSubcommandNames c) [])
  end.
Proof.
  destruct Hword as [Hne Hdash].
  rewrite run_unfold, Hparent. unfold runParent, runParentWith.
  rewrite Hoptions. cbn [bind]. rewrite Htoken.
  destruct (String.eqb_spec token "") as [|_]; [done|]. rewrite Hdash. cbn [orb].
  destruct (getSubcommand c token) as [sub|]; cbn [fmap option_fmap option_map]; [|done].
  eexists. split; [reflexivity|]. intros key.
  rewrite lookup_union.
  destruct (parentOpts !! key) as [v|] eqn:Ev.
  - destruct (isUndefined v) eqn:Eu.
    + rewrite (proj2 (map_lookup_filter_None _ parentOpts key)).
      * by destruct (inheritedOptions !! key).
      * right. intros v' Hv'. simpl. congruence.
    + rewrite (map_lookup_filter_Some_2 _ parentOpts key v Ev Eu).
      by destruct (inheritedOptions !! key).
  - rewrite (proj2 (map_lookup_filter_None _ parentOpts key)); [|by left].
    by destruct (inheritedOptions !! key).
Qed.

Lemma reconstructArgv_fold (c : Command) (result : list string)
    (entries : list (string * Val)) :
  fold_left (fun (result : list string) (kv : string * Val) =>
      let key := kv.1 in
      let value := kv.2 in
      if String.eqb key "_" then result
      else
        let isOwnOption :=
          existsb (fun opt => String.eqb (opt_long opt) key
                              || bool_decide (opt_short opt = Some key))
            (values (cmd_options c)) in
        if isOwnOption then result
        else
          match value with
          | VBool true => (result ++ ["--" +:+ key])%list
          | VBool false | VUndefined => result
          | _ => (result ++ ["--" +:+ key; String_ value])%list
          end)
    entries result
  = (result ++ flat_map (forwardedTokens (cmd_options c)) entries)%list.
Proof.
  revert result. induction entries as [|[key value] entries IH]; intros result; simpl.
  - by rewrite app_nil_r.
  - rewrite IH. unfold forwardedTokens at 2, isOwnFlag. simpl.
    destruct (String.eqb key "_"); [done|].
    destruct (existsb _ _); [done|].
    destruct value as [| [|] | | |]; simpl; by rewrite <- ?app_assoc.
Qed.

(** X8.  The argument list rebuilt for a subcommand starts with the
    positional tokens, unchanged and in order.  Every token after them
    is [--key], or the string of the value, of a flag of the tokenizer's
    result that is not the entry [_], not a long name or short alias of
    the parent's own options, and neither [false] nor [undefined]; every
    such flag is passed on as [--key]; when there is none, the list is
    the positional tokens alone. *)
Theorem reconstructArgv_forwards (c : Command) (positionals : list string)
    (parsed : Argv number) :
  exists forwarded,
    reconstructArgv c positionals parsed = (positionals ++ forwarded)%list
    ∧ (forall token, token ∈ forwarded ->
         exists key value, passedOn (cmd_options c) parsed key value
           ∧ (token = "--" +:+ key ∨ (token = String_ value ∧ value ≠ VBool true)))
    ∧ (forall key value, passedOn (cmd_options c) parsed key value -> ("--" +:+ key) ∈ forwarded)
    ∧ ((forall key value, ¬ passedOn (cmd_options c) parsed key value) -> forwarded = []).
Proof.
  exists (flat_map (forwardedTokens (cmd_options c)) (flags parsed)).
  split; [apply reconstructArgv_fold|].
  assert (Hsound : forall token,
    token ∈ flat_map (forwardedTokens (cmd_options c)) (flags parsed) ->
    exists key value, passedOn (cmd_options c) parsed key value
      ∧ (token = "--" +:+ key ∨ (token = String_ value ∧ value ≠ VBool true))).
  { intros token Htoken. apply list_elem_of_In, in_flat_map in Htoken
      as ([key value] & Hin%list_elem_of_In & Htoken%list_elem_of_In).
    exists key, value. unfold forwardedTokens in Htoken. simpl in Htoken.
    destruct (String.eqb_spec key "_") as [|Hkey]; [by apply elem_of_nil in Htoken|].
    destruct (isOwnFlag (cmd_options c) key) eqn:Eown; [by apply elem_of_nil in Htoken|].
    unfold passedOn.
    destruct value as [| [|] | | |];
      try (by apply elem_of_nil in Htoken);
      repeat (apply elem_of_cons in Htoken as [->|Htoken]);
      try (by apply elem_of_nil in Htoken);
      (split; [done|]); first [by left | by right]. }
  split; [exact Hsound|]. split.
  - intros key value (Hin & Hkey & Hown & Hfalse & Hundefined).
    apply list_elem_of_In, in_flat_map. exists (key, value).
    split; [by apply list_elem_of_In|]. unfold forwardedTokens. simpl.
    destruct (String.eqb_spec key "_") as [|_]; [done|]. rewrite Hown.
    destruct value as [| [|] | | |]; first [done | by left].
  - intros Hnone.
    destruct (flat_map _ _) as [|token forwarded] eqn:Eforwarded; [done|]. exfalso.
    destruct (Hsound token) as (key & value & Hpassed & _).
    + apply elem_of_cons. by left.
    + by apply (Hnone key value).
Qed.
End DispatchProperties.

Section HelpTargetProperties.
Context `{Host}.

Lemma helpLoop_ext {T : Type} (f g : string -> option T) (argv : list string) :
  (forall arg, f arg = g arg) -> helpLoop f argv = helpLoop g argv.
Proof.
  intros Hfg. induction argv as [|arg rest IH]; simpl; [done|].
  rewrite IH, Hfg. done.
Qed.

Lemma findHelpTarget_unfold (cmd : Command) (argv : list string) :
  findHelpTarget cmd argv
  = if negb (isParent cmd) then cmd
    else match helpLoop (fun arg => (fun sub => findHelpTarget sub (tail argv))
                                      <$> getSubcommand cmd arg) argv with
         | Some target => target
         | None => cmd
         end.
Proof.
  destruct cmd as [n d v a o i h subcommands]. simpl.
  destruct (negb (isParent _)); [done|].
  match goal with |- match ?x with _ => _ end = match ?y with _ => _ end =>
    replace x with y; [done|] end.
  apply helpLoop_ext. intros arg. unfold getSubcommand. simpl.
  destruct subcommands as [m|]; [|done].
  induction m as [|[k sub] m IH]; simpl; [done|].
  destruct (String.eqb k arg); [done|]. exact IH.
Qed.

Lemma helpLoop_flags {T : Type} (found : string -> option T) (argv : list string) :
  Forall (fun arg => startsWith arg "-" = true) argv -> helpLoop found argv = None.
Proof.
  induction 1 as [|arg rest Harg _ IH]; simpl; [done|].
  rewrite Harg, IH. by destruct (_ || _).
Qed.

Lemma helpLoop_first_word {T : Type} (found : string -> option T)
    (dashed : list string) (token : string) (rest : list string) :
  Forall (fun arg => startsWith arg "-" = true) dashed ->
  startsWith token "-" = false ->
  helpLoop found (dashed ++ token :: rest) = found token.
Proof.
  intros Hdashed Htoken. induction Hdashed as [|arg dashed Harg _ IH]; simpl.
  - rewrite Htoken.
    destruct (String.eqb_spec token "--help") as [->|_]; [done|].
    destruct (String.eqb_spec token "-h") as [->|_]; done.
  - rewrite Harg, IH. by destruct (_ || _).
Qed.

Lemma helpLoop_Some {T : Type} (found : string -> option T) (argv : list string)
    (target : T) :
  helpLoop found argv = Some target -> exists arg, arg ∈ argv ∧ found arg = Some target.
Proof.
  induction argv as [|arg rest IH]; simpl; [done|]. intros Hloop.
  assert (Hrest : helpLoop found rest = Some target ->
                  exists arg0, arg0 ∈ arg :: rest ∧ found arg0 = Some target).
  { intros (arg0 & Hin & Hfound)%IH. exists arg0. split; [|done].
    apply elem_of_cons. by right. }
  destruct (_ || _); [by apply Hrest|].
  destruct (startsWith arg "-"); [by apply Hrest|].
  exists arg. split; [apply elem_of_cons; by left|done].
Qed.

(** X9.  The command whose help is shown is the command itself for a
    leaf, and for a list of tokens that all start with a dash.  For a
    parent it is decided by the first token that does not start with a
    dash: when that token names a subcommand, the search goes on in the
    subcommand with the list less its first token, whichever token
    that is, so a token found behind a flag is looked at again; when it
    names none, the parent itself is the target.  The target is always
    the command or one of its descendants. *)
Theorem findHelpTarget_first_word (cmd : Command) (argv : list string) :
  (isParent cmd = false -> findHelpTarget cmd argv = cmd)
  ∧ (Forall (fun arg => startsWith arg "-" = true) argv -> findHelpTarget cmd argv = cmd)
  ∧ (forall dashed token rest,
       isParent cmd = true -> argv = (dashed ++ token :: rest)%list ->
       Forall (fun arg => startsWith arg "-" = true) dashed ->
       startsWith token "-" = false ->
       findHelpTarget cmd argv
       = match getSubcommand cmd token with
         | Some sub => findHelpTarget sub (tail argv)
         | None => cmd
         end)
  ∧ rtc subcommandOf cmd (findHelpTarget cmd argv).
Proof.
  split; [|split; [|split]].
  - intros Hleaf. by rewrite findHelpTarget_unfold, Hleaf.
  - intros Hflags. rewrite findHelpTarget_unfold, helpLoop_flags by done.
    by destruct (negb _).
  - intros dashed token rest Hparent -> Hdashed Htoken.
    rewrite findHelpTarget_unfold, Hparent. simpl negb. cbv iota.
    rewrite helpLoop_first_word by done.
    by destruct (getSubcommand cmd token).
  - revert argv. induction cmd as [n d v a o i h|n d v a o i h subcommands IH]
      using Command_tree_ind; intros argv.
    + by rewrite findHelpTarget_unfold.
    + rewrite findHelpTarget_unfold. destruct (negb _); [done|].
      destruct (helpLoop _ argv) as [target|] eqn:Eloop; [|done].
      apply helpLoop_Some in Eloop as (arg & _ & Hfound).
      destruct (getSubcommand _ arg) as [sub|] eqn:Esub; [|done].
      simpl in Hfound. injection Hfound as <-.
      eapply rtc_l; [by exists arg|].
      unfold getSubcommand in Esub. simpl in Esub.
      apply assocGet_elem_of in Esub. rewrite Forall_forall in IH.
      exact (IH (arg, sub) Esub (tail argv)).
Qed.
End HelpTargetProperties.

Section RunProperties.
Context `{Host}.

Local Abbreviation Val := (Value number).





(** X14.  A leaf that the constructor has accepted calls the handler of
    its definition with one value for each declared argument: the typed
    token at the index of the argument, [undefined] where an optional
    argument has no token, and for a variadic argument the sequence of
    all the tokens from its index on. *)
Theorem constructed_leaf_invocation (def : CommandOptions) (c : Command)
    (argv : list string) (inheritedOptions : gmap string Val) (invocation : Invocation)
    (Hleaf : co_subcommands def = None)
    (Hnew : newCommand def = Ok c)
    (Hrun : run c argv inheritedOptions = Ok invocation) :
  co_handler def = Some (inv_handler invocation)
  ∧ inv_args invocation
    = imap (positionalValue
              (positionals (parseArgvWithOptions argv
                              (assocSpread (cmd_inherits c) (cmd_options c)))))
        (default [] (co_args def))
  ∧ length (inv_args invocation) = length (default [] (co_args def)).
Proof.
  assert (Hfields : cmd_args c = default [] (co_args def) ∧ variadicLast (cmd_args c)
                    ∧ cmd_handler c = co_handler def ∧ isParent c = false).
  { unfold newCommand in Hnew. rewrite Hleaf in Hnew.
    destruct (validateArgs _) as [[]|] eqn:Eargs; [|done]. simpl in Hnew.
    destruct (validateOptionConflicts _ _) as [[]|]; [|done]. simpl in Hnew.
    destruct (validateReservedOptions (normalizeOptions (default [] (co_inherits def))))
      as [[]|]; [|done]. simpl in Hnew.
    bind_case Hnew; [|done]. injection Hnew as <-. simpl.
    by apply validateArgs_Ok_iff in Eargs. }
  destruct Hfields as (Hargs & Hlast & Hhandler & Hparent).
  rewrite run_unfold, Hparent in Hrun. unfold runLeaf, extractArgs in Hrun.
  pose proof (extractArgsFrom_spec
    (parseArgvWithOptions argv (assocSpread (cmd_inherits c) (cmd_options c)))
    (cmd_args c) 0 [] Hlast) as Hvalues.
  bind_case Hrun; [|done]. destruct Hvalues as [-> _].
  bind_case Hrun; [|done]. bind_case Hrun; [|done].
  rewrite Hhandler in Hrun. destruct (co_handler def) as [handler|]; [|done].
  injection Hrun as <-. simpl. rewrite <- Hargs. split; [done|]. split; [done|].
  by rewrite length_imap.
Qed.
End RunProperties.

Section EditTheory.
Context {A : Type} `{EqDecision A}.

Implicit Types u v w : list A.

Lemma editDistance_nil_r u : editDistance u [] = Z.of_nat (length u).
Proof. by destruct u. Qed.

Lemma editDistance_cons x u y v :
  editDistance (x :: u) (y :: v)
  = min3 (editDistance u (y :: v) + 1) (editDistance (x :: u) v + 1)
         (editDistance u v + (if decide (x = y) then 0 else 1)).
Proof. reflexivity. Qed.

Lemma EditScript_eq u v n m : EditScript u v n -> n = m -> EditScript u v m.
Proof. by intros Hscript <-. Qed.

Lemma EditScript_nonneg u v n : EditScript u v n -> 0 <= n.
Proof. induction 1; lia. Qed.

Lemma EditScript_nil_l v : EditScript [] v (Z.of_nat (length v)).
Proof.
  induction v as [|y v IH]; [constructor|].
  eapply EditScript_eq; [apply (edit_insert y), IH|]. simpl length. lia.
Qed.

Lemma EditScript_nil_r u : EditScript u [] (Z.of_nat (length u)).
Proof.
  induction u as [|x u IH]; [constructor|].
  eapply EditScript_eq; [apply (edit_delete x), IH|]. simpl length. lia.
Qed.

Lemma EditScript_refl u : EditScript u u 0.
Proof. induction u; by constructor. Qed.

Lemma editDistance_script u v : EditScript u v (editDistance u v).
Proof.
  revert v. induction u as [|x u IHu]; [apply EditScript_nil_l|].
  induction v as [|y v IHv]; [apply (EditScript_nil_r (x :: u))|].
  rewrite editDistance_cons.
  assert (Hdelete : EditScript (x :: u) (y :: v) (editDistance u (y :: v) + 1))
    by apply edit_delete, IHu.
  assert (Hinsert : EditScript (x :: u) (y :: v) (editDistance (x :: u) v + 1))
    by apply edit_insert, IHv.
  assert (Hchange : EditScript (x :: u) (y :: v)
                      (editDistance u v + (if decide (x = y) then 0 else 1))).
  { destruct (decide (x = y)) as [->|_].
    - eapply EditScript_eq; [apply edit_keep, IHu|lia].
    - apply edit_substitute, IHu. }
  unfold min3.
  destruct (Z.min_spec (editDistance u (y :: v) + 1) (editDistance (x :: u) v + 1))
    as [[_ ->]|[_ ->]];
  match goal with |- context [Z.min ?p ?q] =>
    destruct (Z.min_spec p q) as [[_ ->]|[_ ->]] end; done.
Qed.

Lemma editDistance_least u v n : EditScript u v n -> editDistance u v <= n.
Proof.
  induction 1 as [|x u v n _ IH|x y u v n _ IH|x u v n _ IH|y u v n _ IH].
  - done.
  - rewrite editDistance_cons, decide_True by done. unfold min3. lia.
  - rewrite editDistance_cons. unfold min3. destruct (decide (x = y)); lia.
  - destruct v as [|y v].
    + rewrite editDistance_nil_r in *. simpl length. lia.
    + rewrite editDistance_cons. unfold min3. lia.
  - destruct u as [|x u].
    + simpl in *. lia.
    + rewrite editDistance_cons. unfold min3. lia.
Qed.

Lemma EditScript_app u v n u' v' m :
  EditScript u v n -> EditScript u' v' m ->
  EditScript (u ++ u') (v ++ v') (n + m).
Proof.
  intros Hscript Hscript'.
  induction Hscript as [|x u v n _ IH|x y u v n _ IH|x u v n _ IH|y u v n _ IH]; simpl.
  - eapply EditScript_eq; [exact Hscript'|lia].
  - by apply edit_keep.
  - eapply EditScript_eq; [apply (edit_substitute x y), IH|lia].
  - eapply EditScript_eq; [apply (edit_delete x), IH|lia].
  - eapply EditScript_eq; [apply (edit_insert y), IH|lia].
Qed.

Lemma EditScript_reverse u v n : EditScript u v n -> EditScript (reverse u) (reverse v) n.
Proof.
  induction 1 as [|x u v n _ IH|x y u v n _ IH|x u v n _ IH|y u v n _ IH];
    rewrite ?reverse_cons.
  - constructor.
  - eapply EditScript_eq; [apply (EditScript_app _ _ _ [x] [x] 0 IH)|lia].
    apply edit_keep, edit_done.
  - eapply EditScript_eq; [apply (EditScript_app _ _ _ [x] [y] (0 + 1) IH)|lia].
    apply edit_substitute, edit_done.
  - rewrite <- (app_nil_r (reverse v)).
    eapply EditScript_eq; [apply (EditScript_app _ _ _ [x] [] (0 + 1) IH)|lia].
    apply edit_delete, edit_done.
  - rewrite <- (app_nil_r (reverse u)).
    eapply EditScript_eq; [apply (EditScript_app _ _ _ [] [y] (0 + 1) IH)|lia].
    apply edit_insert, edit_done.
Qed.

Lemma editDistance_reverse u v :
  editDistance (reverse u) (reverse v) = editDistance u v.
Proof.
  apply Z.le_antisymm.
  - apply editDistance_least, EditScript_reverse, editDistance_script.
  - rewrite <- (reverse_involutive u), <- (reverse_involutive v) at 1.
    apply editDistance_least, EditScript_reverse, editDistance_script.
Qed.

Lemma EditScript_sym u v n : EditScript u v n -> EditScript v u n.
Proof. induction 1; by constructor. Qed.

Lemma editDistance_sym u v : editDistance u v = editDistance v u.
Proof.
  apply Z.le_antisymm; apply editDistance_least, EditScript_sym, editDistance_script.
Qed.

Lemma EditScript_trans u v w n m :
  EditScript u v n -> EditScript v w m ->
  exists k, k <= n + m ∧ EditScript u w k.
Proof.
  intros Huv. revert w m.
  induction Huv as [|x u v n _ IH|x y u v n _ IH|x u v n _ IH|y u v n _ IH];
    intros w m Hvw.
  - exists m. split; [lia|done].
  - remember (x :: v) as v0 eqn:Ev0.
    induction Hvw as [|x' v' w m Hvw _|x' y' v' w m Hvw _|x' v' w m Hvw _|y' v' w m Hvw IHvw].
    + done.
    + injection Ev0 as -> ->. destruct (IH _ _ Hvw) as (k & Hk & Hscript).
      exists k. split; [lia|by apply edit_keep].
    + injection Ev0 as -> ->. destruct (IH _ _ Hvw) as (k & Hk & Hscript).
      exists (k + 1). split; [lia|by apply edit_substitute].
    + injection Ev0 as -> ->. destruct (IH _ _ Hvw) as (k & Hk & Hscript).
      exists (k + 1). split; [lia|by apply edit_delete].
    + destruct (IHvw Ev0) as (k & Hk & Hscript).
      exists (k + 1). split; [lia|by apply edit_insert].
  - remember (y :: v) as v0 eqn:Ev0.
    induction Hvw as [|x' v' w m Hvw _|x' y' v' w m Hvw _|x' v' w m Hvw _|y' v' w m Hvw IHvw].
    + done.
    + injection Ev0 as -> ->. destruct (IH _ _ Hvw) as (k & Hk & Hscript).
      exists (k + 1). split; [lia|by apply edit_substitute].
    + injection Ev0 as -> ->. destruct (IH _ _ Hvw) as (k & Hk & Hscript).
      exists (k + 1). split; [lia|by apply edit_substitute].
    + injection Ev0 as -> ->. destruct (IH _ _ Hvw) as (k & Hk & Hscript).
      exists (k + 1). split; [lia|by apply edit_delete].
    + destruct (IHvw Ev0) as (k & Hk & Hscript).
      exists (k + 1). split; [lia|by apply edit_insert].
  - destruct (IH _ _ Hvw) as (k & Hk & Hscript).
    exists (k + 1). split; [lia|by apply edit_delete].
  - remember (y :: v) as v0 eqn:Ev0.
    induction Hvw as [|x' v' w m Hvw _|x' y' v' w m Hvw _|x' v' w m Hvw _|y' v' w m Hvw IHvw].
    + done.
    + injection Ev0 as -> ->. destruct (IH _ _ Hvw) as (k & Hk & Hscript).
      exists (k + 1). split; [lia|by apply edit_insert].
    + injection Ev0 as -> ->. destruct (IH _ _ Hvw) as (k & Hk & Hscript).
      exists (k + 1). split; [lia|by apply edit_insert].
    + injection Ev0 as -> ->. destruct (IH _ _ Hvw) as (k & Hk & Hscript).
      exists k. split; [lia|done].
    + destruct (IHvw Ev0) as (k & Hk & Hscript).
      exists (k + 1). split; [lia|by apply edit_insert].
Qed.

Lemma editDistance_triangle u v w :
  editDistance u w <= editDistance u v + editDistance v w.
Proof.
  destruct (EditScript_trans u v w _ _ (editDistance_script u v) (editDistance_script v w))
    as (k & Hk & Hscript).
  apply editDistance_least in Hscript. lia.
Qed.

Lemma EditScript_lengths u v n :
  EditScript u v n ->
  Z.abs (Z.of_nat (length u) - Z.of_nat (length v)) <= n.
Proof. induction 1; simpl length; lia. Qed.

Lemma editDistance_upper u v :
  editDistance u v <= Z.max (Z.of_nat (length u)) (Z.of_nat (length v)).
Proof.
  revert v. induction u as [|x u IH]; intros v; [simpl; lia|].
  destruct v as [|y v]; [rewrite editDistance_nil_r; lia|].
  rewrite editDistance_cons. specialize (IH v). unfold min3. simpl length.
  destruct (decide (x = y)); lia.
Qed.

Lemma EditScript_zero u v n : EditScript u v n -> n = 0 -> u = v.
Proof.
  induction 1 as [|x u v n _ IH|x y u v n Hscript _|x u v n Hscript _|y u v n Hscript _];
    intros Hn.
  - done.
  - by rewrite IH.
  - apply EditScript_nonneg in Hscript. lia.
  - apply EditScript_nonneg in Hscript. lia.
  - apply EditScript_nonneg in Hscript. lia.
Qed.

Lemma editDistance_zero u v : editDistance u v = 0 <-> u = v.
Proof.
  split.
  - intros Hzero. eapply EditScript_zero; [apply editDistance_script|done].
  - intros ->. apply Z.le_antisymm.
    + apply editDistance_least, EditScript_refl.
    + eapply EditScript_nonneg, editDistance_script.
Qed.

Lemma prefixDistance_0_l u v (j : nat) :
  (j <= length v)%nat -> prefixDistance u v 0 j = Z.of_nat j.
Proof.
  intros Hj. unfold prefixDistance. rewrite take_0. simpl.
  rewrite length_reverse, length_take. lia.
Qed.

Lemma prefixDistance_0_r u v (i : nat) :
  (i <= length u)%nat -> prefixDistance u v i 0 = Z.of_nat i.
Proof.
  intros Hi. unfold prefixDistance. rewrite take_0, editDistance_nil_r.
  rewrite length_reverse, length_take. lia.
Qed.

Lemma prefixDistance_S u v (i j : nat) x y :
  u !! i = Some x -> v !! j = Some y ->
  prefixDistance u v (S i) (S j)
  = min3 (prefixDistance u v i (S j) + 1) (prefixDistance u v (S i) j + 1)
         (prefixDistance u v i j + (if decide (x = y) then 0 else 1)).
Proof.
  intros Hx Hy. unfold prefixDistance.
  rewrite (take_S_r u i x Hx), (take_S_r v j y Hy), !reverse_snoc.
  apply editDistance_cons.
Qed.

Lemma prefixDistance_all u v :
  prefixDistance u v (length u) (length v) = editDistance u v.
Proof.
  unfold prefixDistance. rewrite !firstn_all. apply editDistance_reverse.
Qed.
End EditTheory.

Section DistanceProperties.
Context `{Host}.

Lemma get_characters (s : string) (n : nat) : String.get n s = characters s !! n.
Proof.
  revert n. induction s as [|c s IH]; intros [|n]; simpl; first [done | apply IH].
Qed.

Lemma length_characters (s : string) : length (characters s) = String.length s.
Proof. induction s as [|c s IH]; simpl; [done|]. by rewrite IH. Qed.

Lemma characters_inj (s t : string) : characters s = characters t -> s = t.
Proof.
  intros Heq. rewrite <- (string_of_list_ascii_of_string s),
    <- (string_of_list_ascii_of_string t). unfold characters in Heq. by rewrite Heq.
Qed.

Lemma nth_map_seq (f : nat -> Z) (len j : nat) :
  (j < len)%nat -> nth j (List.map f (seq 0 len)) 0 = f j.
Proof.
  intros Hj. rewrite (nth_indep _ 0 (f 0%nat)) by (by rewrite length_map, length_seq).
  rewrite map_nth, seq_nth by done. done.
Qed.

(** The inner loop fills the row [i] of the table from the row [i - 1]. *)
Lemma levenshtein_row (a b : string) (i k : nat) (prevRow : list Z) :
  (1 <= i <= String.length a)%nat -> (k <= String.length b)%nat ->
  prevRow = List.map (prefixDistance (characters a) (characters b) (i - 1))
              (seq 0 (S (String.length b))) ->
  fold_left (fun (currentRow : list Z) (j : nat) =>
      let cost :=
        if bool_decide (String.get (i - 1) a = String.get (j - 1) b)
        then 0 else 1 in
      (currentRow ++
        [min3 (nth j prevRow 0 + 1)
              (nth (j - 1) currentRow 0 + 1)
              (nth (j - 1) prevRow 0 + cost)])%list)
    (seq 1 k) [Z.of_nat i]
  = List.map (prefixDistance (characters a) (characters b) i) (seq 0 (S k)).
Proof.
  intros Hi Hk ->.
  match goal with |- fold_left ?f _ _ = _ => set (body := f) end.
  induction k as [|k IH].
  - change (seq 1 0) with (@nil nat). change (seq 0 1) with [0%nat].
    cbn [fold_left List.map]. rewrite prefixDistance_0_r; [done|].
    rewrite length_characters. lia.
  - rewrite seq_S, fold_left_app, IH by lia. cbn [fold_left]. unfold body at 1.
    rewrite (seq_S (S k)), List.map_app. cbv zeta. f_equal. cbn [List.map]. f_equal.
    replace (1 + k - 1)%nat with k by lia. replace (1 + k)%nat with (S k) by lia.
    replace (0 + S k)%nat with (S k) by lia.
    rewrite !nth_map_seq by lia.
    destruct (lookup_lt_is_Some_2 (characters a) (i - 1)) as [x Hx];
      [rewrite length_characters; lia|].
    destruct (lookup_lt_is_Some_2 (characters b) k) as [y Hy];
      [rewrite length_characters; lia|].
    rewrite !get_characters, Hx, Hy.
    replace i with (S (i - 1)) at 4 by lia.
    rewrite (prefixDistance_S _ _ _ _ x y Hx Hy).
    replace (S (i - 1)) with i by lia.
    do 2 f_equal. destruct (decide (x = y)) as [->|Hne].
    + by rewrite bool_decide_eq_true_2.
    + rewrite bool_decide_eq_false_2; [done|]. congruence.
Qed.

(** The outer loop leaves the row [k] of the table after [k] rounds. *)
Lemma levenshtein_rows (a b : string) (k : nat) :
  (k <= String.length a)%nat ->
  fold_left (fun (prevRow : list Z) (i : nat) =>
      fold_left (fun (currentRow : list Z) (j : nat) =>
          let cost :=
            if bool_decide (String.get (i - 1) a = String.get (j - 1) b)
            then 0 else 1 in
          (currentRow ++
            [min3 (nth j prevRow 0 + 1)
                  (nth (j - 1) currentRow 0 + 1)
                  (nth (j - 1) prevRow 0 + cost)])%list)
        (seq 1 (String.length b)) [Z.of_nat i])
    (seq 1 k) (List.map Z.of_nat (seq 0 (S (String.length b))))
  = List.map (prefixDistance (characters a) (characters b) k)
      (seq 0 (S (String.length b))).
Proof.
  intros Hk.
  match goal with |- fold_left ?f _ _ = _ => set (body := f) end.
  induction k as [|k IH].
  - change (seq 1 0) with (@nil nat). cbn [fold_left].
    apply map_ext_in. intros j Hj%in_seq.
    rewrite prefixDistance_0_l; [done|]. rewrite length_characters. lia.
  - rewrite seq_S, fold_left_app, IH by lia. cbn [fold_left]. unfold body.
    apply levenshtein_row; [lia|lia|].
    do 2 f_equal. lia.
Qed.

(** The value of [levenshteinDistance] is the edit distance of the
    lower-cased strings. *)
Lemma levenshteinDistance_editDistance (a b : string) :
  levenshteinDistance a b
  = editDistance (characters (toLowerCase a)) (characters (toLowerCase b)).
Proof.
  unfold levenshteinDistance.
  destruct (String.eqb_spec (toLowerCase a) (toLowerCase b)) as [->|_].
  { symmetry. by apply editDistance_zero. }
  destruct (Nat.eqb_spec (String.length (toLowerCase a)) 0) as [Ha|Ha].
  { rewrite <- length_characters in Ha. apply nil_length_inv in Ha. rewrite Ha.
    simpl. by rewrite length_characters. }
  destruct (Nat.eqb_spec (String.length (toLowerCase b)) 0) as [Hb|Hb].
  { rewrite <- length_characters in Hb. apply nil_length_inv in Hb. rewrite Hb.
    by rewrite editDistance_nil_r, length_characters. }
  cbv zeta. rewrite levenshtein_rows by done.
  rewrite nth_map_seq by lia.
  rewrite <- (length_characters (toLowerCase a)) at 1.
  rewrite <- (length_characters (toLowerCase b)) at 1.
  apply prefixDistance_all.
Qed.

(** X10.  The distance is that of the cheapest way to turn the
    lower-cased first string into the lower-cased second one by
    insertions, deletions and substitutions of single characters: there
    is a script of that cost, and none of a smaller one. *)
Theorem levenshteinDistance_minimal (a b : string) :
  EditScript (characters (toLowerCase a)) (characters (toLowerCase b))
    (levenshteinDistance a b)
  ∧ forall n,
      EditScript (characters (toLowerCase a)) (characters (toLowerCase b)) n ->
      levenshteinDistance a b <= n.
Proof.
  rewrite levenshteinDistance_editDistance. split.
  - apply editDistance_script.
  - intros n. apply editDistance_least.
Qed.

(** X11.  The distance is a metric on the lower-cased strings: it is
    symmetric, zero exactly for strings that are equal up to case,
    satisfies the triangle inequality, and lies between the difference
    of the two lengths and the greater of them. *)
Theorem levenshteinDistance_metric (a b c : string) :
  levenshteinDistance a b = levenshteinDistance b a
  ∧ (levenshteinDistance a b = 0 <-> toLowerCase a = toLowerCase b)
  ∧ levenshteinDistance a c <= levenshteinDistance a b + levenshteinDistance b c
  ∧ Z.abs (Z.of_nat (String.length (toLowerCase a))
           - Z.of_nat (String.length (toLowerCase b)))
    <= levenshteinDistance a b
    <= Z.max (Z.of_nat (String.length (toLowerCase a)))
             (Z.of_nat (String.length (toLowerCase b))).
Proof.
  rewrite !levenshteinDistance_editDistance.
  split; [apply editDistance_sym|]. split; [|split; [apply editDistance_triangle|]].
  - rewrite editDistance_zero. split; [apply characters_inj|by intros ->].
  - rewrite <- !length_characters. split.
    + apply EditScript_lengths, editDistance_script.
    + apply editDistance_upper.
Qed.

(** X15.  Every suggestion is a candidate that some script of at most
    the threshold's number of edits produces from the input, case apart;
    so its length differs from that of the input by no more than the
    threshold, which is at most 3 when no maximal distance is given. *)
Theorem suggestion_within_threshold (input : string) (candidates : list string)
    (maxDistance : option Z) (c : string)
    (Hc : c ∈ findSuggestions input candidates maxDistance) :
  c ∈ candidates
  ∧ (exists n, n <= threshold input maxDistance
       ∧ EditScript (characters (toLowerCase input)) (characters (toLowerCase c)) n)
  ∧ Z.abs (Z.of_nat (String.length (toLowerCase input))
           - Z.of_nat (String.length (toLowerCase c)))
    <= threshold input maxDistance
  ∧ threshold input None <= 3.
Proof.
  unfold findSuggestions in Hc.
  destruct (String.length input <? 2)%nat; [by apply elem_of_nil in Hc|].
  apply list_elem_of_In, List.in_map_iff in Hc as (r & <- & Hr).
  apply list_elem_of_In, elem_of_take in Hr as (i & Hr%list_elem_of_lookup_2 & _).
  rewrite Array_sort_perm in Hr.
  apply list_elem_of_In, List.in_map_iff in Hr as (c & <- & Hkept).
  apply List.filter_In in Hkept as [Hin Hkeeps]. simpl.
  unfold keeps in Hkeeps. apply andb_prop in Hkeeps as [Hle%Z.leb_le _].
  rewrite levenshteinDistance_editDistance in Hle.
  pose proof (editDistance_script (characters (toLowerCase input))
                (characters (toLowerCase c))) as Hscript.
  split; [by apply list_elem_of_In|]. split; [eauto|]. split.
  - apply EditScript_lengths in Hscript. rewrite !length_characters in Hscript. lia.
  - unfold threshold. lia.
Qed.
End DistanceProperties.

Section TokenizerProperties.
Context `{Host}.

Local Abbreviation Val := (Value number).

Lemma tokenizerOptions_fold (opts : list NormalizedOption)
    (booleanFlags0 stringFlags0 : list string) (aliases0 : gmap string string) :
  exists booleanFlags stringFlags aliases,
    fold_left (fun (acc : list string * list string * gmap string string) opt =>
        let '(booleanFlags, stringFlags, aliases) := acc in
        let '(booleanFlags, stringFlags) :=
          if isBooleanType (opt_type opt) then
            (if opt_negatable opt
             then (booleanFlags ++ [opt_long opt] ++ ["no-" +:+ opt_long opt])%list
             else (booleanFlags ++ [opt_long opt])%list,
             stringFlags)
          else (booleanFlags, (stringFlags ++ [opt_long opt])%list) in
        let aliases :=
          match opt_short opt with
          | Some short =>
              if truthy (Some short) then <[short := opt_long opt]> aliases else aliases
          | None => aliases
          end in
        (booleanFlags, stringFlags, aliases))
      opts (booleanFlags0, stringFlags0, aliases0)
    = (booleanFlags, stringFlags, aliases)
    ∧ (forall name, name ∈ booleanFlags <->
         name ∈ booleanFlags0
         ∨ exists opt, opt ∈ opts ∧ isBooleanType (opt_type opt) = true
             ∧ (name = opt_long opt
                ∨ (opt_negatable opt = true ∧ name = "no-" +:+ opt_long opt)))
    ∧ (forall name, name ∈ stringFlags <->
         name ∈ stringFlags0
         ∨ exists opt, opt ∈ opts ∧ isBooleanType (opt_type opt) = false
             ∧ name = opt_long opt)
    ∧ (forall short long, aliases !! short = Some long ->
         aliases0 !! short = Some long
         ∨ (short ≠ "" ∧ exists opt, opt ∈ opts ∧ opt_short opt = Some short
                                     ∧ opt_long opt = long))
    ∧ (forall short,
         is_Some (aliases0 !! short)
         ∨ (short ≠ "" ∧ exists opt, opt ∈ opts ∧ opt_short opt = Some short) ->
         is_Some (aliases !! short)).
Proof.
  revert booleanFlags0 stringFlags0 aliases0.
  induction opts as [|opt opts IH]; intros booleanFlags0 stringFlags0 aliases0.
  - exists booleanFlags0, stringFlags0, aliases0. split; [done|].
    split; [|split; [|split]].
    + intros name. split; [by left|].
      intros [?|(opt & Hin & _)]; [done|]. by apply elem_of_nil in Hin.
    + intros name. split; [by left|].
      intros [?|(opt & Hin & _)]; [done|]. by apply elem_of_nil in Hin.
    + intros short long Hlookup. by left.
    + intros short [?|(_ & opt & Hin & _)]; [done|]. by apply elem_of_nil in Hin.
  - cbn [fold_left].
    match goal with |- context [fold_left _ opts ?acc] =>
      destruct acc as [[booleanFlags1 stringFlags1] aliases1] eqn:Estep end.
    destruct (IH booleanFlags1 stringFlags1 aliases1)
      as (booleanFlags & stringFlags & aliases & Hfold & Hbool & Hstring & Halias & Hshort).
    exists booleanFlags, stringFlags, aliases. split; [exact Hfold|].
    assert (Hb1 : forall name, name ∈ booleanFlags1 <->
      name ∈ booleanFlags0
      ∨ (isBooleanType (opt_type opt) = true
         ∧ (name = opt_long opt
            ∨ (opt_negatable opt = true ∧ name = "no-" +:+ opt_long opt)))).
    { intros name. destruct (isBooleanType (opt_type opt)), (opt_negatable opt);
        injection Estep as <- _ _; clear;
        rewrite ?elem_of_app, ?elem_of_cons, ?elem_of_nil; intuition congruence. }
    assert (Hs1 : forall name, name ∈ stringFlags1 <->
      name ∈ stringFlags0
      ∨ (isBooleanType (opt_type opt) = false ∧ name = opt_long opt)).
    { intros name. destruct (isBooleanType (opt_type opt));
        injection Estep as _ <- _; clear;
        rewrite ?elem_of_app, ?elem_of_cons, ?elem_of_nil; intuition congruence. }
    assert (Ha1 : aliases1
      = match opt_short opt with
        | Some short =>
            if truthy (Some short) then <[short := opt_long opt]> aliases0 else aliases0
        | None => aliases0
        end).
    { destruct (isBooleanType (opt_type opt)); by injection Estep as _ _ <-. }
    clear Estep. split; [|split; [|split]].
    + intros name. rewrite Hbool, Hb1. split.
      * intros [[?|?]|(opt' & Hin & ?)]; [by left| |].
        -- right. exists opt. split; [apply elem_of_cons; by left|done].
        -- right. exists opt'. split; [apply elem_of_cons; by right|done].
      * intros [?|(opt' & [->|Hin]%elem_of_cons & ?)]; [by left; left|by left; right|].
        right. by exists opt'.
    + intros name. rewrite Hstring, Hs1. split.
      * intros [[?|?]|(opt' & Hin & ?)]; [by left| |].
        -- right. exists opt. split; [apply elem_of_cons; by left|done].
        -- right. exists opt'. split; [apply elem_of_cons; by right|done].
      * intros [?|(opt' & [->|Hin]%elem_of_cons & ?)]; [by left; left|by left; right|].
        right. by exists opt'.
    + intros short long [Hlookup|(Hne & opt' & Hin & Hopt)]%Halias.
      * rewrite Ha1 in Hlookup. destruct (opt_short opt) as [short'|] eqn:Eshort;
          [|by left]. simpl in Hlookup.
        destruct (String.eqb_spec short' "") as [->|Hne]; simpl in Hlookup; [by left|].
        destruct (decide (short' = short)) as [->|Hdiff].
        -- rewrite lookup_insert_eq in Hlookup. injection Hlookup as <-.
           right. split; [done|]. exists opt. split; [apply elem_of_cons; by left|done].
        -- rewrite lookup_insert_ne in Hlookup by done. by left.
      * right. split; [done|]. exists opt'. split; [apply elem_of_cons; by right|done].
    + intros short Hcase. apply Hshort.
      destruct Hcase as [Hsome|(Hne & opt' & [->|Hin]%elem_of_cons & Hopt)].
      * left. rewrite Ha1. destruct (opt_short opt) as [short'|]; [|done].
        destruct (truthy (Some short')); [|done].
        destruct (decide (short' = short)) as [->|Hdiff].
        -- rewrite lookup_insert_eq. eauto.
        -- by rewrite lookup_insert_ne.
      * left. rewrite Ha1, Hopt. simpl.
        destruct (String.eqb_spec short "") as [|_]; [done|]. simpl.
        rewrite lookup_insert_eq. eauto.
      * right. split; [done|]. by exists opt'.
Qed.

(** X12.  What the tokenizer is told of an option table: its boolean
    names are the long names of the boolean options and, for the
    negatable ones, their [no-] forms; its string names are the long
    names of all other options, those of type number among them; its
    aliases map the non-empty short names to long names of the table,
    and every non-empty short name has one. *)
Theorem parseArgvWithOptions_declares (argv : list string) (optionDefs : NormalizedOptions) :
  exists declared,
    parseArgvWithOptions argv optionDefs = mri argv declared
    ∧ (forall name, name ∈ mri_boolean declared <->
         exists opt, opt ∈ values optionDefs ∧ isBooleanType (opt_type opt) = true
           ∧ (name = opt_long opt
              ∨ (opt_negatable opt = true ∧ name = "no-" +:+ opt_long opt)))
    ∧ (forall name, name ∈ mri_string declared <->
         exists opt, opt ∈ values optionDefs ∧ isBooleanType (opt_type opt) = false
           ∧ name = opt_long opt)
    ∧ (forall short long, mri_alias declared !! short = Some long ->
         short ≠ "" ∧ exists opt, opt ∈ values optionDefs ∧ opt_short opt = Some short
                                  ∧ opt_long opt = long)
    ∧ (forall opt short, opt ∈ values optionDefs -> opt_short opt = Some short ->
         short ≠ "" -> is_Some (mri_alias declared !! short)).
Proof.
  destruct (tokenizerOptions_fold (values optionDefs) [] [] ∅)
    as (booleanFlags & stringFlags & aliases & Hfold & Hbool & Hstring & Halias & Hshort).
  exists (mkMriOptions booleanFlags stringFlags aliases). split.
  { unfold parseArgvWithOptions.
    match goal with |- context [fold_left ?f ?l ?acc] =>
      destruct (fold_left f l acc) as [[booleanFlags' stringFlags'] aliases'] eqn:Efold end.
    by injection Hfold as -> -> ->. }
  simpl.
  split; [|split; [|split]].
  - intros name. rewrite Hbool. split; [|by right].
    intros [Hin|?]; [by apply elem_of_nil in Hin|done].
  - intros name. rewrite Hstring. split; [|by right].
    intros [Hin|?]; [by apply elem_of_nil in Hin|done].
  - intros short long [Hempty|?]%Halias; [|done]. by rewrite lookup_empty in Hempty.
  - intros opt short Hin Hopt Hne. apply Hshort. right. split; [done|]. by exists opt.
Qed.
End TokenizerProperties.

(** ** Instances on the example host *)

Section MoreExamples.
#[local] Existing Instance exampleHost.

Lemma normalizeOptions_entries_witness :
  NoDup (keys [("verbose", verboseOption); ("level", levelOption)])
  ∧ keys (normalizeOptions [("verbose", verboseOption); ("level", levelOption)])
    = ["verbose"; "level"].
Proof.
  assert (Hkeys : NoDup (keys [("verbose", verboseOption); ("level", levelOption)])).
  { apply NoDup_cons. split; [|apply NoDup_singleton].
    intros Hin%list_elem_of_singleton. discriminate Hin. }
  split; [exact Hkeys|].
  exact (proj2 (normalizeOptions_entries _ Hkeys)).
Defined.

Lemma newCommand_invariants_witness :
  newCommand copyDefinition = Ok copyCommand
  ∧ variadicLast (cmd_args copyCommand)
  ∧ existsb reserved (values (cmd_options copyCommand)) = false.
Proof.
  assert (Hnew : newCommand copyDefinition = Ok copyCommand) by reflexivity.
  split; [exact Hnew|].
  destruct (newCommand_invariants copyDefinition copyCommand Hnew)
    as (_ & _ & Hreserved & _ & _ & Hlast & _).
  split; [exact Hlast|exact Hreserved].
Defined.

Lemma subcommands_by_name_witness :
  co_subcommands cliDefinition
  = Some [leafCommand "add"; leafCommand "list"; leafCommand "remove"]
  ∧ newCommand cliDefinition = Ok cli
  ∧ getSubcommand cli "list" = Some (leafCommand "list")
  ∧ NoDup (getSubcommandNames cli).
Proof.
  assert (Hsubs : co_subcommands cliDefinition
                  = Some [leafCommand "add"; leafCommand "list"; leafCommand "remove"])
    by reflexivity.
  assert (Hnew : newCommand cliDefinition = Ok cli) by reflexivity.
  split; [exact Hsubs|]. split; [exact Hnew|].
  destruct (subcommands_by_name cliDefinition _ cli Hsubs Hnew) as (Hget & Hnodup & _).
  split; [|exact Hnodup]. rewrite Hget. reflexivity.
Defined.

Lemma extractArgs_positional_witness :
  variadicLast (cmd_args copyCommand)
  ∧ extractArgs copyCommand (mkArgv ["a"; "b"; "c"] [])
    = Ok [VString "a"; VArray [VString "b"; VString "c"]].
Proof.
  assert (Hlast : variadicLast (cmd_args copyCommand)).
  { unfold variadicLast. simpl. apply Forall_cons. split; [reflexivity|apply Forall_nil_2]. }
  split; [exact Hlast|].
  pose proof (extractArgs_positional copyCommand (mkArgv ["a"; "b"; "c"] []) Hlast)
    as Hvalues.
  destruct (extractArgs copyCommand (mkArgv ["a"; "b"; "c"] [])) as [values|e] eqn:Eargs.
  - destruct Hvalues as [-> _]. reflexivity.
  - discriminate Eargs.
Defined.

Lemma parent_routes_first_positional_witness :
  isParent cli = true
  ∧ extractOptions cli (parseArgvWithOptions ["add"] (cmd_options cli)) = Ok ∅
  ∧ head (positionals (parseArgvWithOptions ["add"] (cmd_options cli))) = Some "add"
  ∧ ("add" ≠ "" ∧ startsWith "add" "-" = false)
  ∧ exists merged, run cli ["add"] ∅ = run (leafCommand "add") [] merged.
Proof.
  assert (Hparent : isParent cli = true) by reflexivity.
  assert (Hoptions : extractOptions cli (parseArgvWithOptions ["add"] (cmd_options cli))
                     = Ok ∅) by reflexivity.
  assert (Htoken : head (positionals (parseArgvWithOptions ["add"] (cmd_options cli)))
                   = Some "add") by reflexivity.
  assert (Hword : "add" ≠ "" ∧ startsWith "add" "-" = false)
    by (split; [discriminate|reflexivity]).
  split; [exact Hparent|]. split; [exact Hoptions|]. split; [exact Htoken|].
  split; [exact Hword|].
  destruct (parent_routes_first_positional cli ["add"] ∅ ∅ "add"
              Hparent Hoptions Htoken Hword) as (merged & Hrun & _).
  exists merged. exact Hrun.
Defined.


Lemma constructed_leaf_invocation_witness :
  co_subcommands copyDefinition = None
  ∧ newCommand copyDefinition = Ok copyCommand
  ∧ run copyCommand ["a"; "b"] ∅
    = Ok (mkInvocation "handler of copy" [VString "a"; VArray [VString "b"]] ∅)
  ∧ co_handler copyDefinition = Some "handler of copy".
Proof.
  assert (Hleaf : co_subcommands copyDefinition = None) by reflexivity.
  assert (Hnew : newCommand copyDefinition = Ok copyCommand) by reflexivity.
  assert (Hrun : run copyCommand ["a"; "b"] ∅
                 = Ok (mkInvocation "handler of copy"
                         [VString "a"; VArray [VString "b"]] ∅)) by reflexivity.
  split; [exact Hleaf|]. split; [exact Hnew|]. split; [exact Hrun|].
  exact (proj1 (constructed_leaf_invocation copyDefinition copyCommand ["a"; "b"] ∅ _
                  Hleaf Hnew Hrun)).
Defined.

Lemma suggestion_within_threshold_witness :
  "add" ∈ findSuggestions "addd" ["add"; "list"; "remove"] None
  ∧ Z.abs (Z.of_nat (String.length (toLowerCase "addd"))
           - Z.of_nat (String.length (toLowerCase "add")))
    <= threshold "addd" None.
Proof.
  assert (Hc : "add" ∈ findSuggestions "addd" ["add"; "list"; "remove"] None).
  { assert (Hfound : findSuggestions "addd" ["add"; "list"; "remove"] None = ["add"])
      by (vm_compute; reflexivity).
    rewrite Hfound. apply list_elem_of_singleton. reflexivity. }
  split; [exact Hc|].
  destruct (suggestion_within_threshold "addd" ["add"; "list"; "remove"] None "add" Hc)
    as (_ & _ & Hwindow & _).
  exact Hwindow.
Defined.
End MoreExamples.
